(** * maple-pod/resources: the build and publish scripts

    A shallow embedding of [build-resources.ts] (catalog projection, asset
    download, duration probing, mark encoding, error log and manifest) and of
    the publish script (batched commits and pushes), followed by the
    properties of the two scripts.

    Conventions of the embedding.
    - External collaborators (HTTP, the video platform client, ffprobe, the
      file system, the clock, git) are an explicit [World]: a record of the
      outcomes they hand back.  Every theorem quantifies over the world.
    - An [async] function is a computation in the monad [M]: it threads the
      mutable state of the script, and ends with a value, a rejection
      ([Throw]) or never ([Hang]).
    - The work items are JavaScript objects that the stages mutate in place;
      they live in a store ([objects]) and arrays hold references to them.
    - Operations that run together (the two downloads of an item, the
      probes of a batch) interleave as the world decides; the timer of the
      track download shows only through the interleavings it allows.
    - Console output and the creation of directories have no part in the
      statements and are left out. *)

From stdpp Require Import gmap strings list fin_maps pretty.
From Stdlib Require Import QArith Qcanon.

Local Close Scope Q_scope.
Local Close Scope Qc_scope.

(** ** Promises: a state and rejection monad *)

Module Async.

Inductive Res (A : Type) : Type :=
| Ok (a : A)
| Throw (reason : string)
| Hang.
Arguments Ok {A} a.
Arguments Throw {A} reason.
Arguments Hang {A}.

(** What [Promise.allSettled] reports for one promise, and what an
    external asynchronous call hands back. *)
Inductive Outcome (A : Type) : Type :=
| Fulfilled (value : A)
| Rejected (reason : string).
Arguments Fulfilled {A} value.
Arguments Rejected {A} reason.

Definition M (S A : Type) : Type := S -> Res A * S.

Definition ret {S A} (a : A) : M S A := fun s => (Ok a, s).

Definition bind {S A B} (m : M S A) (k : A -> M S B) : M S B :=
  fun s =>
    match m s with
    | (Ok a, s') => k a s'
    | (Throw e, s') => (Throw e, s')
    | (Hang, s') => (Hang, s')
    end.

Definition get {S} : M S S := fun s => (Ok s, s).
Definition modify {S} (f : S -> S) : M S unit := fun s => (Ok tt, f s).
Definition throw {S A} (reason : string) : M S A := fun s => (Throw reason, s).
Definition hang {S A} : M S A := fun s => (Hang, s).

(** [await p] for a promise whose outcome the world decides. *)
Definition await {S A} (o : Outcome A) : M S A :=
  match o with
  | Fulfilled v => ret v
  | Rejected e => throw e
  end.

(** [try { m } catch (error) { h error }] *)
Definition try_catch {S A} (m : M S A) (h : string -> M S A) : M S A :=
  fun s =>
    match m s with
    | (Throw e, s') => h e s'
    | r => r
    end.

(** The settled outcome of one promise: a rejection becomes a value. *)
Definition settle {S A} (m : M S A) : M S (Outcome A) :=
  fun s =>
    match m s with
    | (Ok a, s') => (Ok (Fulfilled a), s')
    | (Throw e, s') => (Ok (Rejected e), s')
    | (Hang, s') => (Hang, s')
    end.

(** [for (const x of xs) { await body(x) }] *)
Fixpoint forEach {S A} (xs : list A) (body : A -> M S unit) : M S unit :=
  match xs with
  | [] => ret tt
  | x :: xs' => bind (body x) (fun _ => forEach xs' body)
  end.

(** [await Promise.all(xs.map(body))] for callbacks that never suspend
    (no [await] in their body, as in the mark encoder): [xs.map] runs every
    callback to its end, in the order of [xs], also after one of them has
    thrown; the joined promise then rejects with the first rejection.
    Callbacks that do suspend are scheduled where they are used. *)
Fixpoint allFrom {S A} (first : option string) (xs : list A)
    (body : A -> M S unit) : M S unit :=
  match xs with
  | [] => match first with
          | None => ret tt
          | Some e => throw e
          end
  | x :: xs' =>
      bind (settle (body x)) (fun o =>
        match o, first with
        | Rejected e, None => allFrom (Some e) xs' body
        | _, _ => allFrom first xs' body
        end)
  end.

Definition promiseAll {S A} (xs : list A) (body : A -> M S unit) : M S unit :=
  allFrom None xs body.

(** The rejection [Promise.all] reports, given how each member settles:
    the first one in the order of the array. *)
Definition firstRejection {A} (rejection : A -> option string) (xs : list A)
    : option string :=
  head (omap rejection xs).

Definition settled (rejection : option string) : Res unit :=
  match rejection with
  | None => Ok tt
  | Some e => Throw e
  end.

End Async.
Import Async.

Declare Scope async_scope.
Delimit Scope async_scope with async.
Notation "x <- m ;; k" := (bind m (fun x => k))
  (at level 100, m at next level, right associativity) : async_scope.
Notation "m ;;; k" := (bind m (fun _ => k))
  (at level 100, right associativity) : async_scope.
Local Open Scope async_scope.

(** ** JavaScript values used by the scripts *)

Module Js.

(** A JavaScript [number]: the finite doubles are rationals; [-0] and [0]
    are identified (both are falsy and both print as [0]). *)
Inductive number : Type :=
| NaN
| Finite (q : Qc)
| Infinity (negative : bool).

Definition zero : number := Finite 0%Qc.

(** [ToBoolean] on numbers: [NaN] and zero are falsy. *)
Definition truthy (n : number) : bool :=
  match n with
  | NaN => false
  | Finite q => negb (Qc_eq_bool q 0%Qc)
  | Infinity _ => true
  end.

(** What the probe library hands back for a field of its report, and so
    what a [duration] can hold at run time whatever its declared type: the
    field is missing, or it is a number (when the text is an unsigned
    decimal), or it is the text itself (["N/A"], say). *)
Inductive value : Type :=
| Undefined
| Num (n : number)
| Str (s : string).

(** [ToBoolean]: [undefined] and the empty string are falsy. *)
Definition truthyValue (v : value) : bool :=
  match v with
  | Undefined => false
  | Num n => truthy n
  | Str s => negb (String.eqb s EmptyString)
  end.

(** [x || 0] *)
Definition or_zero (x : value) : value :=
  if truthyValue x then x else Num zero.

(** [typeof v === 'number'] *)
Definition isNumber (v : value) : bool :=
  match v with
  | Num _ => true
  | _ => false
  end.

(** [o[key] = text] on an object created by a literal, with texts as
    values: the key [__proto__] reaches the setter inherited from
    [Object.prototype], which ignores a value that is not an object, so no
    property is created. *)
Definition assign (key text : string) (o : gmap string string) : gmap string string :=
  if String.eqb key "__proto__" then o else <[key := text]> o.

(** [s.endsWith(suffix)] *)
Definition endsWith (s suffix : string) : bool :=
  let n := String.length s in
  let m := String.length suffix in
  (m <=? n)%nat && String.eqb (String.substring (n - m) m s) suffix.

(** [array.slice(start, end)] for [0 <= start <= end]; [end] is clamped to
    the length of the array. *)
Definition slice {T} (array : list T) (start end_ : nat) : list T :=
  take (end_ - start) (drop start array).

(** The loop of [chunkArray]: [fuel] bounds the number of evaluations of
    the loop condition; running out of it stands for a loop that does not
    end (size 0). *)
Fixpoint chunkArray_loop {T} (fuel : nat) (array : list T) (size i : nat)
    (result : list (list T)) : option (list (list T)) :=
  match fuel with
  | O => None
  | S fuel' =>
      if (i <? length array)%nat
      then chunkArray_loop fuel' array size (i + size)
             (result ++ [slice array i (i + size)])
      else Some result
  end.

(** [chunkArray(array, size)], for a size that is a natural number.  Both
    scripts declare the same function. *)
Definition chunkArray {T} (array : list T) (size : nat) : option (list (list T)) :=
  chunkArray_loop (S (length array)) array size 0 [].

(** The last character of a string, if it has one. *)
Fixpoint lastChar (s : string) : option Ascii.ascii :=
  match s with
  | EmptyString => None
  | String c EmptyString => Some c
  | String _ rest => lastChar rest
  end.

(** Every chunk but the last has [n] elements. *)
Definition fullButLast {T} (n : nat) (chunks : list (list T)) : Prop :=
  ∀ k c, S k < length chunks → chunks !! k = Some c → length c = n.

End Js.

(** ** build-resources.ts *)

Module Build.
Import Js.

Module Meta.
Record t : Type := { albumArtist : string; artist : string; title : string; year : string }.
End Meta.

Module Source.
Record t : Type := { client : string; date : string; structure : string; version : string }.
End Source.

Record MapleBgmItem : Type := {
  description : string;
  filename : string;
  mark : string;
  metadata : Meta.t;
  source : Source.t;
  youtube : string
}.

Record OutputDataItem : Type := {
  title : string;
  cover : string;
  duration : value;                   (* declared a number *)
  src : string;
  data : MapleBgmItem
}.

(** [item.duration = d] *)
Definition set_duration (d : value) (item : OutputDataItem) : OutputDataItem :=
  {| title := title item; cover := cover item; duration := d;
     src := src item; data := data item |}.

Inductive ErrorType : Type := Bgm | Mark.

Record ErrorLog : Type := { type : ErrorType; message : string }.

Module Manifest.
Record t : Type := {
  bgms : list OutputDataItem;
  marks : gmap string string;
  builtAt : N
}.
End Manifest.

(** A work item is an object; arrays hold references into the store. *)
Definition Ref : Type := nat.

(** The calls the script makes to the outside, in the order it makes them. *)
Inductive Event : Type :=
| OfetchCatalog
| OfetchMark (markUrl : string)
| WriteMark (markPath : string)
| Ytdl (bgmYoutubeId : string) (bgmPath : string)
| Ffprobe (bgmPath : string)
| ReadFileSync (markPath : string)
| WriteErrorLog (errorLogPath : string) (content : list ErrorLog)
| WriteManifest (dataPath : string) (content : Manifest.t).

Inductive ProbeResult : Type :=
| ProbeErr (err : string)
| ProbeOk (format_duration : value).

(** What the outside answers.  Downloads and probes are asked once per work
    item, so their answers are indexed by the item's reference.  The outside
    also decides how the operations that run together interleave: whether
    the response to a mark request arrives after the delay of the track
    download, and how long each probe takes. *)
Record World : Type := {
  outputDir : string;
  scanMarks : gset string;            (* base names of the png files under output/mark *)
  scanBgms : gset string;             (* base names of the mp3 files under output/bgm *)
  ofetchCatalog : Outcome (list MapleBgmItem);
  ofetchMark : Ref -> Outcome string;
  markResponseLate : Ref -> bool;
  writeMark : Ref -> Outcome unit;
  ytdlSave : Ref -> Outcome unit;
  ffprobe : Ref -> ProbeResult;
  probeLatency : Ref -> nat;
  readFileSync : string -> Outcome string;
  deflateSync : string -> string;      (* with String.fromCharCode; taken to return *)
  writeErrorLog : Outcome unit;
  writeManifest : Outcome unit;
  errorLogNow : N;                    (* Date.now() in the log's name *)
  builtAtNow : N                      (* Date.now() in the manifest *)
}.

(** The mutable state of the module: the two sets of the Local Asset
    Index, the store of work items, [errorLogs], [marks], and the calls
    made so far. *)
Record State : Type := {
  downloadedMarks : gset string;
  downloadedBgms : gset string;
  objects : list OutputDataItem;
  errorLogs : list ErrorLog;
  marks : gmap string string;
  events : list Event
}.

Definition init : State :=
  {| downloadedMarks := ∅; downloadedBgms := ∅; objects := [];
     errorLogs := []; marks := ∅; events := [] |}.

Definition with_index (ms bs : gset string) (s : State) : State :=
  {| downloadedMarks := ms; downloadedBgms := bs; objects := objects s;
     errorLogs := errorLogs s; marks := marks s; events := events s |}.

Definition with_objects (os : list OutputDataItem) (s : State) : State :=
  {| downloadedMarks := downloadedMarks s; downloadedBgms := downloadedBgms s;
     objects := os; errorLogs := errorLogs s; marks := marks s;
     events := events s |}.

Definition with_errorLogs (es : list ErrorLog) (s : State) : State :=
  {| downloadedMarks := downloadedMarks s; downloadedBgms := downloadedBgms s;
     objects := objects s; errorLogs := es; marks := marks s;
     events := events s |}.

Definition with_marks (m : gmap string string) (s : State) : State :=
  {| downloadedMarks := downloadedMarks s; downloadedBgms := downloadedBgms s;
     objects := objects s; errorLogs := errorLogs s; marks := m;
     events := events s |}.

Definition with_events (ev : list Event) (s : State) : State :=
  {| downloadedMarks := downloadedMarks s; downloadedBgms := downloadedBgms s;
     objects := objects s; errorLogs := errorLogs s; marks := marks s;
     events := ev |}.

Definition emit (e : Event) : M State unit :=
  modify (fun s => with_events (events s ++ [e]) s).

(** [errorLogs.push(e)] *)
Definition pushError (e : ErrorLog) : M State unit :=
  modify (fun s => with_errorLogs (errorLogs s ++ [e]) s).

(** The object a dangling reference would read; [loadCatalog] allocates
    every reference the stages use, so it is never read. *)
Definition blank : OutputDataItem :=
  let none := EmptyString in
  {| title := none; cover := none; duration := Num zero; src := none;
     data := {| description := none; filename := none; mark := none;
                metadata := {| Meta.albumArtist := none; Meta.artist := none;
                               Meta.title := none; Meta.year := none |};
                source := {| Source.client := none; Source.date := none;
                             Source.structure := none; Source.version := none |};
                youtube := none |} |}.

#[global] Instance OutputDataItem_inhabited : Inhabited OutputDataItem :=
  populate blank.

(** The object a reference points to. *)
Definition deref (s : State) (r : Ref) : OutputDataItem := objects s !!! r.

(** [path.join(dir, name)] for two plain segments. *)
Definition path_join (dir name : string) : string := dir +:+ "/" +:+ name.

Definition getMarkFilename (item : OutputDataItem) : string :=
  mark (data item) +:+ ".png".

Definition getBgmFilename (item : OutputDataItem) : string :=
  filename (data item) +:+ ".mp3".

Definition isMarkDownloaded (s : State) (item : OutputDataItem) : bool :=
  bool_decide (getMarkFilename item ∈ downloadedMarks s).

Definition isBgmDownloaded (s : State) (item : OutputDataItem) : bool :=
  bool_decide (getBgmFilename item ∈ downloadedBgms s).

(** The projection of one catalog entry, lines 132-138. *)
Definition toOutputDataItem (item : MapleBgmItem) : OutputDataItem :=
  {| title := Meta.title (metadata item);
     cover := "/mark/" +:+ mark item +:+ ".png";
     duration := Num zero;
     src := "/bgm/" +:+ filename item +:+ ".mp3";
     data := item |}.

(** [.filter(item => item.youtube)]: the empty string is falsy. *)
Definition hasYoutube (item : MapleBgmItem) : bool :=
  negb (String.eqb (youtube item) EmptyString).

Definition project (catalog : list MapleBgmItem) : list OutputDataItem :=
  map toOutputDataItem (List.filter hasYoutube catalog).

Section Run.
Context (w : World).

Definition dataDir : string := outputDir w.
Definition bgmDir : string := path_join (outputDir w) "bgm".
Definition markDir : string := path_join (outputDir w) "mark".

Definition prepareDirs : M State unit :=
  modify (with_index (scanMarks w) (scanBgms w)).

(** [downloadMark], lines 72-80, in the two parts its first [await]
    separates: the request is made when the function is called, the rest
    runs once the response is there. *)
Definition requestMark (item : OutputDataItem) : M State unit :=
  let markFilename := getMarkFilename item in
  let markUrl := "https://maplestory-music.github.io/mark/" +:+ markFilename in
  emit (OfetchMark markUrl).

Definition storeMark (r : Ref) (item : OutputDataItem) : M State unit :=
  let markFilename := getMarkFilename item in
  let markPath := path_join markDir markFilename in
  _ <- await (ofetchMark w r) ;;
  emit (WriteMark markPath) ;;;
  await (writeMark w r) ;;;
  modify (fun s => with_index ({[markFilename]} ∪ downloadedMarks s) (downloadedBgms s) s).

Definition downloadMark (r : Ref) (item : OutputDataItem) : M State unit :=
  requestMark item ;;; storeMark r item.

(** [getBgmDuration], lines 86-97, in two parts as well: the executor of
    the promise calls the probe at once; the callback settles the promise
    when the probe is done. *)
Definition startProbe (item : OutputDataItem) : M State unit :=
  let bgmFilename := getBgmFilename item in
  let bgmPath := path_join bgmDir bgmFilename in
  emit (Ffprobe bgmPath).

Definition probed (r : Ref) : M State value :=
  match ffprobe w r with
  | ProbeErr err => throw err
  | ProbeOk format_duration => ret (or_zero format_duration)
  end.

Definition getBgmDuration (r : Ref) (item : OutputDataItem) : M State value :=
  startProbe item ;;; probed r.

(** [downloadBgm], lines 104-118.  Nothing is observed of it before its
    delay of five seconds is over. *)
Definition downloadBgm (r : Ref) (item : OutputDataItem) : M State unit :=
  let bgmFilename := getBgmFilename item in
  let bgmYoutubeId := youtube (data item) in
  let bgmPath := path_join bgmDir bgmFilename in
  emit (Ytdl bgmYoutubeId bgmPath) ;;;
  await (ytdlSave w r) ;;;
  modify (fun s => with_index (downloadedMarks s) ({[bgmFilename]} ∪ downloadedBgms s) s).

(** [await Promise.allSettled([downloadMark(item), downloadBgm(item)])]:
    both functions are called, so the mark request is made at once; then
    the one goes on when its response arrives and the other when its delay
    is over, whichever comes first.  From there on each makes one call at
    most, its first step, and their updates of the index do not touch the
    same set, so each is run to its end in one go. *)
Definition bothSettled (r : Ref) (item : OutputDataItem)
    : M State (Outcome unit * Outcome unit) :=
  requestMark item ;;;
  if markResponseLate w r then
    bgmResult <- settle (downloadBgm r item) ;;
    markResult <- settle (storeMark r item) ;;
    ret (markResult, bgmResult)
  else
    markResult <- settle (storeMark r item) ;;
    bgmResult <- settle (downloadBgm r item) ;;
    ret (markResult, bgmResult).

(** One turn of the download loop, lines 146-158. *)
Definition downloadItem (r : Ref) : M State unit :=
  s <- get ;;
  let item := deref s r in
  results <- bothSettled r item ;;
  let '(markResult, bgmResult) := results in
  match markResult with
  | Rejected reason =>
      pushError {| type := Mark;
                   message := "Failed to download mark for " +:+ mark (data item)
                              +:+ ": " +:+ reason |}
  | Fulfilled _ => ret tt
  end ;;;
  match bgmResult with
  | Rejected reason =>
      pushError {| type := Bgm;
                   message := "Failed to download BGM for " +:+ mark (data item)
                              +:+ ": " +:+ reason |}
  | Fulfilled _ => ret tt
  end.

Definition toDownloadList (s : State) (outputData : list Ref) : list Ref :=
  List.filter
    (fun i => negb (isMarkDownloaded s (deref s i)) || negb (isBgmDownloaded s (deref s i)))
    outputData.

(** 1. Download, lines 143-160. *)
Definition downloadStage (outputData : list Ref) : M State unit :=
  s <- get ;;
  forEach (toDownloadList s outputData) downloadItem.

(** [item.duration = d] *)
Definition setDuration (r : Ref) (d : value) : M State unit :=
  modify (fun s => with_objects (alter (set_duration d) r (objects s)) s).

(** The callback of the enricher, lines 168-177, for an item on its own. *)
Definition enrichItem (r : Ref) : M State unit :=
  s <- get ;;
  let item := deref s r in
  try_catch
    (d <- getBgmDuration r item ;; setDuration r d)
    (fun error =>
       pushError {| type := Bgm;
                    message := "Failed to get duration for " +:+ filename (data item)
                               +:+ ": " +:+ error |} ;;;
       setDuration r (Num zero)).

(** The callback up to its [await]: the probe is called. *)
Definition enrichItem_start (r : Ref) : M State unit :=
  s <- get ;;
  startProbe (deref s r).

(** The rest of the callback, run when the probe of its item is done. *)
Definition enrichItem_resume (r : Ref) : M State unit :=
  s <- get ;;
  let item := deref s r in
  try_catch
    (d <- probed r ;; setDuration r d)
    (fun error =>
       pushError {| type := Bgm;
                    message := "Failed to get duration for " +:+ filename (data item)
                               +:+ ": " +:+ error |} ;;;
       setDuration r (Num zero)).

(** The order in which the probes of a batch are done: by the time they
    take, and in the order they were called when they take the same. *)
Fixpoint doneAfter (r : Ref) (done : list Ref) : list Ref :=
  match done with
  | [] => [r]
  | x :: rest =>
      if (probeLatency w r <=? probeLatency w x)%nat then r :: x :: rest
      else x :: doneAfter r rest
  end.

Definition completionOrder (batch : list Ref) : list Ref :=
  foldr doneAfter [] batch.

(** [await Promise.all(batch.map(async item => ...))] for the enricher:
    [batch.map] calls every probe, in the order of the batch; each callback
    goes on when its own probe is done.  No callback can reject. *)
Definition enrichBatch (batch : list Ref) : M State unit :=
  forEach batch enrichItem_start ;;;
  forEach (completionOrder batch) enrichItem_resume.

(** The two batched stages share their shape: chunks of 50, one after the
    other, each awaited to its end. *)
Definition inBatches (outputData : list Ref) (runBatch : list Ref -> M State unit)
    : M State unit :=
  match chunkArray outputData 50 with
  | None => hang
  | Some batches => forEach batches runBatch
  end.

(** 2. Update duration info, lines 163-179. *)
Definition enrichStage (outputData : list Ref) : M State unit :=
  inBatches outputData enrichBatch.

Definition encodeItem (r : Ref) : M State unit :=
  s <- get ;;
  let item := deref s r in
  let markFilename := getMarkFilename item in
  let markPath := path_join markDir markFilename in
  emit (ReadFileSync markPath) ;;;
  buf <- await (readFileSync w markPath) ;;
  let compressed := deflateSync w buf in
  modify (fun s => with_marks (assign (mark (data item)) compressed (marks s)) s).

(** 3. Encode marks, lines 182-197. *)
Definition encodeStage (outputData : list Ref) : M State unit :=
  inBatches outputData (fun batch => promiseAll batch encodeItem).

(** Lines 199-203. *)
Definition flushErrors : M State unit :=
  s <- get ;;
  if (0 <? length (errorLogs s))%nat then
    let errorLogPath :=
      path_join (outputDir w) ("error-" +:+ pretty (errorLogNow w) +:+ ".log") in
    emit (WriteErrorLog errorLogPath (errorLogs s)) ;;;
    await (writeErrorLog w)
  else ret tt.

(** Lines 205-213. *)
Definition writeData (outputData : list Ref) : M State unit :=
  s <- get ;;
  emit (WriteManifest (path_join dataDir "data.json")
          {| Manifest.bgms := map (deref s) outputData;
             Manifest.marks := marks s;
             Manifest.builtAt := builtAtNow w |}) ;;;
  await (writeManifest w).

(** Lines 129-140: the index, the catalog, its projection, and an empty
    [errorLogs].  The objects made by [.map] are stored in order, so the
    array [outputData] holds the references 0, 1, 2, ... *)
Definition loadCatalog : M State (list Ref) :=
  prepareDirs ;;;
  emit OfetchCatalog ;;;
  catalog <- await (ofetchCatalog w) ;;
  let items := project catalog in
  modify (with_objects items) ;;;
  modify (with_errorLogs []) ;;;
  ret (seq 0 (length items)).

Definition main : M State unit :=
  outputData <- loadCatalog ;;
  downloadStage outputData ;;;
  enrichStage outputData ;;;
  modify (with_marks ∅) ;;;
  encodeStage outputData ;;;
  flushErrors ;;;
  writeData outputData.

(** One run of the script. *)
Definition run : Res unit * State := main init.

End Run.

(** The download stage on its own, from a given Local Asset Index: the
    catalog is projected, the items are stored, the stage runs. *)
Definition downloadStart (catalog : list MapleBgmItem) (ms bs : gset string) : State :=
  with_objects (project catalog) (with_index ms bs init).

Definition download (w : World) (catalog : list MapleBgmItem) (ms bs : gset string)
    : Res unit * State :=
  downloadStage w (seq 0 (length (project catalog))) (downloadStart catalog ms bs).

(** ** Vocabulary of the statements *)

(** The two requests of one turn of the download loop. *)
Definition fetchesFor (w : World) (item : OutputDataItem) : list Event :=
  [OfetchMark ("https://maplestory-music.github.io/mark/" +:+ getMarkFilename item);
   Ytdl (youtube (data item)) (path_join (bgmDir w) (getBgmFilename item))].

(** How [downloadMark] and [downloadBgm] settle for the item at [r]. *)
Definition markSettled (w : World) (r : Ref) : Outcome unit :=
  match ofetchMark w r with
  | Rejected e => Rejected e
  | Fulfilled _ => writeMark w r
  end.

Definition bgmSettled (w : World) (r : Ref) : Outcome unit := ytdlSave w r.

(** The records one turn of the download loop pushes. *)
Definition downloadErrors (w : World) (r : Ref) (item : OutputDataItem) : list ErrorLog :=
  match markSettled w r with
  | Rejected reason =>
      [{| type := Mark;
          message := "Failed to download mark for " +:+ mark (data item)
                     +:+ ": " +:+ reason |}]
  | Fulfilled _ => []
  end ++
  match bgmSettled w r with
  | Rejected reason =>
      [{| type := Bgm;
          message := "Failed to download BGM for " +:+ mark (data item)
                     +:+ ": " +:+ reason |}]
  | Fulfilled _ => []
  end.

(** The duration the enricher leaves on the item at [r]. *)
Definition settledDuration (w : World) (r : Ref) : value :=
  match ffprobe w r with
  | ProbeErr _ => Num zero
  | ProbeOk format_duration => or_zero format_duration
  end.

(** The store after the enricher has visited the references [l]. *)
Definition enriched (w : World) (l : list Ref) (os : list OutputDataItem)
    : list OutputDataItem :=
  foldl (λ os r, alter (set_duration (settledDuration w r)) r os) os l.

(** The records the enricher pushes for the item at [r]. *)
Definition probeErrors (w : World) (r : Ref) (item : OutputDataItem) : list ErrorLog :=
  match ffprobe w r with
  | ProbeErr error =>
      [{| type := Bgm;
          message := "Failed to get duration for " +:+ filename (data item)
                     +:+ ": " +:+ error |}]
  | ProbeOk _ => []
  end.

(** The end of [main], lines 199-213. *)
Definition finish (w : World) (outputData : list Ref) : M State unit :=
  flushErrors w ;;; writeData w outputData.

(** The two writes of [finish], as calls. *)
Definition logWrite (w : World) (s : State) : Event :=
  WriteErrorLog
    (path_join (outputDir w) ("error-" +:+ pretty (errorLogNow w) +:+ ".log"))
    (errorLogs s).

Definition dataWrite (w : World) (outputData : list Ref) (s : State) : Event :=
  WriteManifest (path_join (dataDir w) "data.json")
    {| Manifest.bgms := map (deref s) outputData;
       Manifest.marks := marks s;
       Manifest.builtAt := builtAtNow w |}.

Definition outcome (o : Outcome unit) : Res unit :=
  match o with
  | Fulfilled _ => Ok tt
  | Rejected e => Throw e
  end.

(** How reading the mark file of the item at [r] ends. *)
Definition readRejection (w : World) (s : State) (r : Ref) : option string :=
  match readFileSync w (path_join (markDir w) (getMarkFilename (deref s r))) with
  | Fulfilled _ => None
  | Rejected e => Some e
  end.

(** The state in which [loadCatalog] leaves the download stage. *)
Definition loaded (w : World) (catalog : list MapleBgmItem) : State :=
  with_errorLogs []
    (with_objects (project catalog)
       (with_events [OfetchCatalog]
          (with_index (scanMarks w) (scanBgms w) init))).

(** An item both of whose files are in the index. *)
Definition present (ms bs : gset string) (item : OutputDataItem) : bool :=
  bool_decide (getMarkFilename item ∈ ms) && bool_decide (getBgmFilename item ∈ bs).

(** Observations on a trace of calls. *)
Definition isMarkFetch (e : Event) : bool :=
  match e with OfetchMark _ => true | _ => false end.
Definition isBgmFetch (e : Event) : bool :=
  match e with Ytdl _ _ => true | _ => false end.
Definition isErrorLogWrite (e : Event) : bool :=
  match e with WriteErrorLog _ _ => true | _ => false end.
Definition isManifestWrite (e : Event) : bool :=
  match e with WriteManifest _ _ => true | _ => false end.

Definition isFetch (e : Event) : bool := isMarkFetch e || isBgmFetch e.
Definition isWrite (e : Event) : bool := isErrorLogWrite e || isManifestWrite e.

(** The manifest written by a run, if it got that far. *)
Definition manifestOf (ev : list Event) : option Manifest.t :=
  last (omap (fun e => match e with WriteManifest _ m => Some m | _ => None end) ev).

(** ** Stage summaries *)

(** What one turn of the download loop does to the state. *)
Record DownloadTurn (w : World) (r : Ref) (s s' : State) : Prop := {
  turn_objects : objects s' = objects s;
  turn_marks : marks s' = marks s;
  turn_downloadedMarks :
    downloadedMarks s' =
      match markSettled w r with
      | Fulfilled _ => {[getMarkFilename (deref s r)]} ∪ downloadedMarks s
      | Rejected _ => downloadedMarks s
      end;
  turn_downloadedBgms :
    downloadedBgms s' =
      match bgmSettled w r with
      | Fulfilled _ => {[getBgmFilename (deref s r)]} ∪ downloadedBgms s
      | Rejected _ => downloadedBgms s
      end;
  turn_errorLogs : errorLogs s' = errorLogs s ++ downloadErrors w r (deref s r);
  turn_fetches :
    List.filter isFetch (events s') =
      List.filter isFetch (events s) ++ fetchesFor w (deref s r);
  turn_writes : List.filter isWrite (events s') = List.filter isWrite (events s)
}.

(** What the loop does over the references [l]. *)
Record DownloadRun (w : World) (l : list Ref) (s s' : State) : Prop := {
  run_objects : objects s' = objects s;
  run_marks : marks s' = marks s;
  run_downloadedMarks : downloadedMarks s ⊆ downloadedMarks s';
  run_downloadedBgms : downloadedBgms s ⊆ downloadedBgms s';
  run_errorLogs :
    errorLogs s' = errorLogs s ++ flat_map (λ r, downloadErrors w r (deref s r)) l;
  run_fetches :
    List.filter isFetch (events s') =
      List.filter isFetch (events s) ++ flat_map (λ r, fetchesFor w (deref s r)) l;
  run_writes : List.filter isWrite (events s') = List.filter isWrite (events s);
  run_mark_added :
    ∀ r, r ∈ l → markSettled w r = Fulfilled tt →
         getMarkFilename (deref s r) ∈ downloadedMarks s';
  run_bgm_added :
    ∀ r, r ∈ l → bgmSettled w r = Fulfilled tt →
         getBgmFilename (deref s r) ∈ downloadedBgms s'
}.

(** What the enricher does to the state when it goes on with one item,
    the probe being done. *)
Record EnrichTurn (w : World) (r : Ref) (s s' : State) : Prop := {
  enrich_objects :
    objects s' = alter (set_duration (settledDuration w r)) r (objects s);
  enrich_downloadedMarks : downloadedMarks s' = downloadedMarks s;
  enrich_downloadedBgms : downloadedBgms s' = downloadedBgms s;
  enrich_marks : marks s' = marks s;
  enrich_errorLogs : errorLogs s' = errorLogs s ++ probeErrors w r (deref s r);
  enrich_events : events s' = events s
}.

(** What the enricher does over the references [l]. *)
Record EnrichRun (w : World) (l : list Ref) (s s' : State) : Prop := {
  enriched_objects : objects s' = enriched w l (objects s);
  enriched_downloadedMarks : downloadedMarks s' = downloadedMarks s;
  enriched_downloadedBgms : downloadedBgms s' = downloadedBgms s;
  enriched_marks : marks s' = marks s;
  enriched_quiet :
    (∀ r, r ∈ l → ∃ d, ffprobe w r = ProbeOk d) → errorLogs s' = errorLogs s;
  enriched_writes : List.filter isWrite (events s') = List.filter isWrite (events s);
  enriched_fetches : List.filter isFetch (events s') = List.filter isFetch (events s)
}.

(** The parts of the state the encoder leaves alone. *)
Record Untouched (s s' : State) : Prop := {
  same_objects : objects s' = objects s;
  same_errorLogs : errorLogs s' = errorLogs s;
  same_downloadedMarks : downloadedMarks s' = downloadedMarks s;
  same_downloadedBgms : downloadedBgms s' = downloadedBgms s;
  same_writes : List.filter isWrite (events s') = List.filter isWrite (events s);
  same_fetches : List.filter isFetch (events s') = List.filter isFetch (events s)
}.

(** The run has reached the mark encoder with state [s2], and the encoder
    has left it in state [s3]. *)
Record Reached (w : World) (catalog : list MapleBgmItem) (s2 s3 : State) : Prop := {
  reached_catalog : ofetchCatalog w = Fulfilled catalog;
  reached_stages :
    let outputData := seq 0 (length (project catalog)) in
    ∃ s0 s1,
      loadCatalog w init = (Ok outputData, s0)
      ∧ downloadStage w outputData s0 = (Ok tt, s1)
      ∧ enrichStage w outputData s1 = (Ok tt, s2);
  reached_objects :
    objects s3 = enriched w (seq 0 (length (project catalog))) (project catalog);
  reached_objects_before : objects s2 = objects s3;
  reached_errorLogs : errorLogs s3 = errorLogs s2;
  reached_writes : List.filter isWrite (events s3) = [];
  reached_quiet :
    (∀ r, markSettled w r = Fulfilled tt) →
    (∀ r, bgmSettled w r = Fulfilled tt) →
    (∀ r, ∃ d, ffprobe w r = ProbeOk d) →
    errorLogs s3 = []
}.

(** The three ways a run goes: no catalog, a mark that cannot be read, or
    all the way to [finish]. *)
Inductive RunCase (w : World) : Prop :=
| NoCatalog e
    (Hcatalog : ofetchCatalog w = Rejected e)
    (Hres : fst (run w) = Throw e)
    (Hevents : events (snd (run w)) = [OfetchCatalog])
| ReadFailed catalog s2 s3 e
    (Hreached : Reached w catalog s2 s3)
    (Hread : firstRejection (readRejection w s2) (seq 0 (length (project catalog))) = Some e)
    (Hrun : run w = (Throw e, s3))
| Finished catalog s2 s3
    (Hreached : Reached w catalog s2 s3)
    (Hread : firstRejection (readRejection w s2) (seq 0 (length (project catalog))) = None)
    (Hrun : run w = finish w (seq 0 (length (project catalog))) s3).

(** ** Vocabulary of the further properties *)

(** The probe call made for an item, and the read of its mark file. *)
Definition probeCall (w : World) (item : OutputDataItem) : Event :=
  Ffprobe (path_join (bgmDir w) (getBgmFilename item)).

Definition readCall (w : World) (item : OutputDataItem) : Event :=
  ReadFileSync (path_join (markDir w) (getMarkFilename item)).

(** [marks] after the encoder's callback has run for the item at [r]. *)
Definition encodeOne (w : World) (s : State) (m : gmap string string) (r : Ref)
    : gmap string string :=
  match readFileSync w (path_join (markDir w) (getMarkFilename (deref s r))) with
  | Fulfilled buf => assign (mark (data (deref s r))) (deflateSync w buf) m
  | Rejected _ => m
  end.

(** The calls of one turn of the download loop: the mark request first;
    then the track request and, when the mark request succeeded, the write
    of the mark file, the write first unless the response to the mark
    request came late. *)
Definition downloadCalls (w : World) (r : Ref) (item : OutputDataItem) : list Event :=
  let request :=
    OfetchMark ("https://maplestory-music.github.io/mark/" +:+ getMarkFilename item) in
  let write :=
    match ofetchMark w r with
    | Fulfilled _ => [WriteMark (path_join (markDir w) (getMarkFilename item))]
    | Rejected _ => []
    end in
  let track := Ytdl (youtube (data item)) (path_join (bgmDir w) (getBgmFilename item)) in
  if markResponseLate w r then request :: track :: write
  else request :: write ++ [track].

(** The batches the encoder starts: all of them up to and including the
    first one with a mark that cannot be read. *)
Fixpoint upToFailure (w : World) (s : State) (batches : list (list Ref))
    : list (list Ref) :=
  match batches with
  | [] => []
  | batch :: rest =>
      match firstRejection (readRejection w s) batch with
      | Some _ => [batch]
      | None => batch :: upToFailure w s rest
      end
  end.

(** The state after the encoder's callback has run for the items [l]. *)
Definition encodedState (w : World) (s : State) (l : list Ref) : State :=
  with_marks (foldl (encodeOne w s) (marks s) l)
    (with_events (events s ++ map (λ r, readCall w (deref s r)) l) s).

(** The order in which the enricher goes on with the items: batch after
    batch, within a batch as the probes are done. *)
Definition enrichOrder (w : World) (outputData : list Ref) : list Ref :=
  match chunkArray outputData 50 with
  | None => []
  | Some batches => concat (map (completionOrder w) batches)
  end.

(** What the enricher does to the state when it calls the probes of the
    items [calls] and goes on with the items [order]. *)
Record EnrichPass (w : World) (order calls : list Ref) (s s' : State) : Prop := {
  pass_objects : objects s' = enriched w order (objects s);
  pass_downloadedMarks : downloadedMarks s' = downloadedMarks s;
  pass_downloadedBgms : downloadedBgms s' = downloadedBgms s;
  pass_marks : marks s' = marks s;
  pass_errorLogs :
    errorLogs s' = errorLogs s ++ flat_map (λ r, probeErrors w r (deref s r)) order;
  pass_events : events s' = events s ++ map (λ r, probeCall w (deref s r)) calls
}.

(** The records of a whole run, in the order they are pushed: those of the
    download stage, then those of the enricher. *)
Definition runErrors (w : World) (catalog : list MapleBgmItem) : list ErrorLog :=
  let s0 := loaded w catalog in
  let outputData := seq 0 (length (project catalog)) in
  flat_map (λ r, downloadErrors w r (deref s0 r)) (toDownloadList s0 outputData)
  ++ flat_map (λ r, probeErrors w r (deref s0 r)) (enrichOrder w outputData).

(** The manifest entry of the catalog entry that became the item at [r]. *)
Definition manifestEntry (w : World) (r : Ref) (entry : MapleBgmItem) : OutputDataItem :=
  {| title := Meta.title (metadata entry);
     cover := "/mark/" +:+ mark entry +:+ ".png";
     duration := settledDuration w r;
     src := "/bgm/" +:+ filename entry +:+ ".mp3";
     data := entry |}.

(** Every mark of the catalog's items can be read. *)
Definition marksReadable (w : World) (catalog : list MapleBgmItem) : Prop :=
  ∀ item, item ∈ project catalog →
    ∃ buf, readFileSync w (path_join (markDir w) (getMarkFilename item)) = Fulfilled buf.

(** ** Sample worlds *)

Module Samples.
Definition entry (f m y : string) : MapleBgmItem :=
  {| description := "An entry of the sample catalog"; filename := f; mark := m;
     metadata := {| Meta.albumArtist := "Wizet"; Meta.artist := "Wizet";
                    Meta.title := f; Meta.year := "2003" |};
     source := {| Source.client := "KMS"; Source.date := "2003";
                  Source.structure := "Sound/Bgm00.img"; Source.version := "1.2.1" |};
     youtube := y |}.

(** Three entries, the second without a source reference. *)
Definition catalog3 : list MapleBgmItem :=
  [entry "FloralLife" "henesys" "yt-floral";
   entry "Unlisted" "henesys" EmptyString;
   entry "GoPicnic" "kerning" "yt-picnic"].

Definition png : string := "PNG".

Definition world (catalog : list MapleBgmItem) (ms bs : gset string)
    (fetchMark : Ref → Outcome string) (save : Ref → Outcome unit)
    (probe : Ref → ProbeResult) (read : string → Outcome string)
    (writeLog : Outcome unit) : World :=
  {| outputDir := "/repo/output";
     scanMarks := ms; scanBgms := bs;
     ofetchCatalog := Fulfilled catalog;
     ofetchMark := fetchMark;
     markResponseLate := λ _, false;
     writeMark := λ _, Fulfilled tt;
     ytdlSave := save;
     ffprobe := probe;
     probeLatency := λ _, 0;
     readFileSync := read;
     deflateSync := λ buf, buf;
     writeErrorLog := writeLog;
     writeManifest := Fulfilled tt;
     errorLogNow := 1700000000000%N;
     builtAtNow := 1700000000001%N |}.

(** The same answers with another timing. *)
Definition timed (late : Ref → bool) (latency : Ref → nat) (w : World) : World :=
  {| outputDir := outputDir w;
     scanMarks := scanMarks w; scanBgms := scanBgms w;
     ofetchCatalog := ofetchCatalog w;
     ofetchMark := ofetchMark w;
     markResponseLate := late;
     writeMark := writeMark w;
     ytdlSave := ytdlSave w;
     ffprobe := ffprobe w;
     probeLatency := latency;
     readFileSync := readFileSync w;
     deflateSync := deflateSync w;
     writeErrorLog := writeErrorLog w;
     writeManifest := writeManifest w;
     errorLogNow := errorLogNow w;
     builtAtNow := builtAtNow w |}.

Definition seconds (q : Q) : ProbeResult := ProbeOk (Num (Finite (Q2Qc q))).

(** Nothing is on disk and nothing fails. *)
Definition calm : World :=
  world catalog3 ∅ ∅ (λ _, Fulfilled png) (λ _, Fulfilled tt)
    (λ _, seconds (187 # 2)) (λ _, Fulfilled png) (Fulfilled tt).

(** The mark of the first item cannot be fetched. *)
Definition markDown : World :=
  world catalog3 ∅ ∅
    (λ r, if decide (r = 0) then Rejected "404 Not Found" else Fulfilled png)
    (λ _, Fulfilled tt) (λ _, seconds (187 # 2)) (λ _, Fulfilled png)
    (Fulfilled tt).

(** A single item whose mark is on disk and whose track is not. *)
Definition markOnDisk : World :=
  world [entry "FloralLife" "henesys" "yt-floral"] {["henesys.png"]} ∅
    (λ _, Fulfilled png) (λ _, Fulfilled tt) (λ _, seconds (187 # 2))
    (λ _, Fulfilled png) (Fulfilled tt).

(** The probe of the first item fails and the log cannot be written. *)
Definition logDown : World :=
  world catalog3 ∅ ∅ (λ _, Fulfilled png) (λ _, Fulfilled tt)
    (λ r, if decide (r = 0) then ProbeErr "ffprobe exited with code 1"
          else seconds (187 # 2))
    (λ _, Fulfilled png) (Rejected "EACCES").

(** The probe of the first item fails; every write succeeds. *)
Definition probeDown : World :=
  world catalog3 ∅ ∅ (λ _, Fulfilled png) (λ _, Fulfilled tt)
    (λ r, if decide (r = 0) then ProbeErr "ffprobe exited with code 1"
          else seconds (187 # 2))
    (λ _, Fulfilled png) (Fulfilled tt).

(** The probe of the first item's file does not know its duration and
    reports the text N/A. *)
Definition durationUnknown : World :=
  world catalog3 ∅ ∅ (λ _, Fulfilled png) (λ _, Fulfilled tt)
    (λ r, if decide (r = 0) then ProbeOk (Str "N/A") else seconds (187 # 2))
    (λ _, Fulfilled png) (Fulfilled tt).

(** Both probes fail, the first one after the second. *)
Definition slowFirstProbe : World :=
  timed (λ _, false) (λ r, if decide (r = 0) then 2 else 1)
    (world catalog3 ∅ ∅ (λ _, Fulfilled png) (λ _, Fulfilled tt)
       (λ _, ProbeErr "ffprobe exited with code 1")
       (λ _, Fulfilled png) (Fulfilled tt)).

(** The response to the first mark request takes more than five seconds. *)
Definition lateMarkResponse : World :=
  timed (λ r, bool_decide (r = 0)) (λ _, 0) calm.

(** A catalog with an entry whose mark is named [__proto__]. *)
Definition protoMark : World :=
  world [entry "FloralLife" "__proto__" "yt-floral";
         entry "GoPicnic" "kerning" "yt-picnic"] ∅ ∅
    (λ _, Fulfilled png) (λ _, Fulfilled tt) (λ _, seconds (187 # 2))
    (λ _, Fulfilled png) (Fulfilled tt).

(** The mark file of the kerning items cannot be read. *)
Definition unreadable : World :=
  world catalog3 ∅ ∅
    (λ r, if decide (r = 1) then Rejected "404 Not Found" else Fulfilled png)
    (λ _, Fulfilled tt) (λ _, seconds (187 # 2))
    (λ p, if String.eqb p "/repo/output/mark/kerning.png"
          then Rejected "ENOENT: no such file or directory"
          else Fulfilled png)
    (Fulfilled tt).

(** The catalog cannot be fetched. *)
Definition offline : World :=
  {| outputDir := "/repo/output";
     scanMarks := ∅; scanBgms := ∅;
     ofetchCatalog := Rejected "fetch failed";
     ofetchMark := λ _, Fulfilled png;
     markResponseLate := λ _, false;
     writeMark := λ _, Fulfilled tt;
     ytdlSave := λ _, Fulfilled tt;
     ffprobe := λ _, seconds (187 # 2);
     probeLatency := λ _, 0;
     readFileSync := λ _, Fulfilled png;
     deflateSync := λ buf, buf;
     writeErrorLog := Fulfilled tt;
     writeManifest := Fulfilled tt;
     errorLogNow := 1700000000000%N;
     builtAtNow := 1700000000001%N |}.

(** Fifty-one items, each with its own mark; the first mark cannot be
    read. *)
Definition catalog51 : list MapleBgmItem :=
  map (λ k, entry ("Track" +:+ pretty k) ("mark" +:+ pretty k) ("yt-" +:+ pretty k))
    (seq 0 51).

Definition firstMarkUnreadable : World :=
  world catalog51 ∅ ∅ (λ _, Fulfilled png) (λ _, Fulfilled tt)
    (λ _, seconds (187 # 2))
    (λ p, if String.eqb p "/repo/output/mark/mark0.png"
          then Rejected "ENOENT: no such file or directory"
          else Fulfilled png)
    (Fulfilled tt).
End Samples.
End Build.

(** ** The publish script *)

Module Publish.
Import Js.

(** An entry of [git.status().files]; the script reads its path only. *)
Record FileStatusResult : Type := { path : string }.

Inductive GitCall : Type :=
| CheckIsRepo
| Fetch (remote branch : string)
| Reset (options : list string)
| Init
| AddRemote (name url : string)
| Checkout (args : list string)
| Status
| Add (files : list string)
| Commit (message : string) (files : list string)
| Push (remote branch : string) (options : list string).

(** What git answers: whether [output] is a repository root, the changed
    files, and the outcome of each call given how many came before. *)
Record World : Type := {
  isRepoRoot : bool;
  statusFiles : list FileStatusResult;
  dateText : string;
  gitResult : nat -> GitCall -> Outcome unit
}.

Record State : Type := { calls : list GitCall; part : nat }.

Definition init : State := {| calls := []; part := 0 |}.

Definition origin : string := "https://github.com/maple-pod/resources.git".
Definition branch : string := "gh-pages".

Section Run.
Context (w : World).

Definition git (c : GitCall) : M State unit :=
  s <- get ;;
  modify (fun s => {| calls := calls s ++ [c]; part := part s |}) ;;;
  await (gitResult w (length (calls s)) c).

Definition setPart (n : nat) : M State unit :=
  modify (fun s => {| calls := calls s; part := n |}).

Definition commitMessage (n : nat) : string :=
  dateText w +:+ " - Deploy resources - Part " +:+ pretty n.

(** Lines 52-61 and 67-77: stage, commit, count, push. *)
Definition commitBatch (files : list string) : M State unit :=
  git (Add files) ;;;
  s <- get ;;
  git (Commit (commitMessage (part s)) files) ;;;
  setPart (part s + 1) ;;;
  git (Push origin branch ["--force"]).

Definition hasExt (ext : string) (file : FileStatusResult) : bool :=
  endsWith (path file) ext.

Definition run : M State unit :=
  git CheckIsRepo ;;;
  (if isRepoRoot w then
     git (Fetch origin branch) ;;;
     git (Reset ["--hard"; origin +:+ "/" +:+ branch])
   else
     git Init ;;;
     git (AddRemote "origin" origin) ;;;
     git (Checkout ["--orphan"; branch])) ;;;
  git Status ;;;
  let files := statusFiles w in
  let jsonFiles := List.filter (hasExt ".json") files in
  let pngFiles := List.filter (hasExt ".png") files in
  let mp3Files := List.filter (hasExt ".mp3") files in
  if (length jsonFiles =? 0)%nat && (length pngFiles =? 0)%nat && (length mp3Files =? 0)%nat
  then ret tt
  else
    setPart 1 ;;;
    (if (0 <? length jsonFiles)%nat || (0 <? length pngFiles)%nat
     then commitBatch (map path (jsonFiles ++ pngFiles))
     else ret tt) ;;;
    (if (0 <? length mp3Files)%nat then
       let batchSize := 100 in
       match chunkArray mp3Files batchSize with
       | None => hang
       | Some batches => forEach batches (fun batch => commitBatch (map path batch))
       end
     else ret tt).
End Run.

(** ** Vocabulary of the statements *)

(** The calls that bring the working copy in line with the remote. *)
Definition syncCalls (w : World) : list GitCall :=
  CheckIsRepo ::
  (if isRepoRoot w
   then [Fetch origin branch; Reset ["--hard"; origin +:+ "/" +:+ branch]]
   else [Init; AddRemote "origin" origin; Checkout ["--orphan"; branch]])
  ++ [Status].

(** The three calls that publish batch number [n]. *)
Definition batchCalls (w : World) (n : nat) (files : list string) : list GitCall :=
  [Add files; Commit (commitMessage w n) files; Push origin branch ["--force"]].

(** ** Vocabulary of the further properties *)

(** The calls that change the remote or prepare a change. *)
Definition isPublishCall (c : GitCall) : bool :=
  match c with
  | Add _ | Commit _ _ | Push _ _ _ => true
  | _ => false
  end.

(** The paths staged by a trace, in order. *)
Definition staged (cs : list GitCall) : list string :=
  flat_map (λ c, match c with Add files => files | _ => [] end) cs.

(** The calls that publish the batches [batches], numbered from [first]. *)
Definition planCalls (w : World) (first : nat) (batches : list (list string))
    : list GitCall :=
  concat (imap (λ i batch, batchCalls w (first + i) batch) batches).

(** Every call of the trace was answered well. *)
Definition allAnswered (w : World) (cs : list GitCall) : Prop :=
  ∀ i c, cs !! i = Some c → gitResult w i c = Fulfilled tt.

(** How a script that stops at the first failed call ends: fulfilled
    with every call answered well, or rejected with the failure of the last
    call made, every earlier call answered well. *)
Definition failStop {A} (w : World) (r : Res A * State) : Prop :=
  match fst r with
  | Ok _ => allAnswered w (calls (snd r))
  | Throw e =>
      ∃ before c,
        calls (snd r) = before ++ [c]
        ∧ allAnswered w before
        ∧ gitResult w (length before) c = Rejected e
  | Hang => False
  end.

(** ** Sample world *)

Module Samples.
Definition named (dir ext : string) (k : nat) : FileStatusResult :=
  {| path := dir +:+ pretty k +:+ ext |}.

(** 250 tracks, 9 marks and the manifest, and a log that is not
    published. *)
Definition changed : list FileStatusResult :=
  {| path := "data.json" |} :: {| path := "error-1700000000000.log" |}
  :: map (named "mark/" ".png") (seq 0 9)
  ++ map (named "bgm/" ".mp3") (seq 0 250).

Definition firstDeploy : World :=
  {| isRepoRoot := false; statusFiles := changed; dateText := "2026-01-31";
     gitResult := λ _ _, Fulfilled tt |}.

(** Only a log has changed. *)
Definition onlyLog : World :=
  {| isRepoRoot := true;
     statusFiles := [{| path := "error-1700000000000.log" |}];
     dateText := "2026-01-31";
     gitResult := λ i _, if decide (i = 2) then Rejected "reset failed"
                         else Fulfilled tt |}.

(** The first deployment, with the push of the second batch refused. *)
Definition pushRefused : World :=
  {| isRepoRoot := false; statusFiles := changed; dateText := "2026-01-31";
     gitResult := λ i _, if decide (i = 10) then Rejected "remote rejected"
                         else Fulfilled tt |}.
End Samples.
End Publish.

(** * Properties *)

(** ** chunkArray *)

Section ChunkArray.
Import Js.
Context {T : Type}.
Implicit Types (xs : list T) (chunks : list (list T)).

Lemma slice_take_drop xs i n : slice xs i (i + n) = take n (drop i xs).
Proof. unfold slice. f_equal. lia. Qed.

Lemma chunkArray_loop_spec xs n :
  0 < n →
  ∀ fuel i result,
    length xs - i < fuel →
    ∃ chunks,
      chunkArray_loop fuel xs n i result = Some (result ++ chunks)
      ∧ concat chunks = drop i xs
      ∧ Forall (λ c, c ≠ []) chunks
      ∧ fullButLast n chunks.
Proof.
  intros Hn fuel. induction fuel as [|fuel IH]; intros i result Hfuel; [lia|].
  simpl. destruct (Nat.ltb_spec i (length xs)) as [Hi|Hi].
  - destruct (IH (i + n) (result ++ [slice xs i (i + n)])) as (rest & Hloop & Hcat & Hne & Hfull);
      [lia|].
    exists (take n (drop i xs) :: rest).
    rewrite Hloop, slice_take_drop, <- app_assoc. simpl.
    split; [done|]. split; [|split].
    + rewrite Hcat, <- drop_drop. apply take_drop.
    + constructor; [|done].
      intros Hnil. apply (f_equal length) in Hnil.
      rewrite length_take, length_drop in Hnil. simpl in Hnil. lia.
    + intros [|k] c Hk Hc; simpl in *.
      * injection Hc as <-. rewrite length_take, length_drop.
        destruct rest as [|c' rest']; simpl in Hk; [lia|].
        apply Forall_cons in Hne as [Hc' _].
        assert (drop (i + n) xs ≠ []) as Hd.
        { rewrite <- Hcat. simpl. destruct c'; [done|]. discriminate. }
        assert (i + n < length xs); [|lia].
        destruct (decide (i + n < length xs)); [done|].
        exfalso. apply Hd, drop_ge. lia.
      * apply (Hfull k); [lia|done].
  - exists []. rewrite app_nil_r. repeat split.
    + simpl. symmetry. apply drop_ge. lia.
    + constructor.
    + intros k c Hk. simpl in Hk. lia.
Qed.

(** [chunkArray] returns for a positive size. *)
Lemma chunkArray_total xs n :
  0 < n → ∃ chunks, chunkArray xs n = Some chunks ∧ concat chunks = xs.
Proof.
  intros Hn.
  destruct (chunkArray_loop_spec xs n Hn (S (length xs)) 0 []) as (chunks & H & Hcat & _);
    [lia|].
  exists chunks. split; [exact H | exact Hcat].
Qed.

(** C10: for a positive chunk size [n], [chunkArray xs n] returns chunks
    whose concatenation is [xs], none of them empty, and all of them but
    possibly the last of length exactly [n]. *)
Theorem chunkArray_partition xs n :
  0 < n →
  ∃ chunks,
    chunkArray xs n = Some chunks
    ∧ concat chunks = xs
    ∧ Forall (λ c, c ≠ []) chunks
    ∧ fullButLast n chunks.
Proof.
  intros Hn.
  destruct (chunkArray_loop_spec xs n Hn (S (length xs)) 0 []) as (chunks & H & Hcat & Hne & Hfull);
    [lia|].
  exists chunks. unfold chunkArray. rewrite H. simpl in Hcat. done.
Qed.
End ChunkArray.

Lemma chunkArray_partition_witness :
  0 < 2 ∧
  ∃ chunks,
    Js.chunkArray [1; 2; 3; 4; 5] 2 = Some chunks
    ∧ concat chunks = [1; 2; 3; 4; 5]
    ∧ Forall (λ c, c ≠ []) chunks
    ∧ Js.fullButLast 2 chunks.
Proof. split; [lia | apply (chunkArray_partition [1; 2; 3; 4; 5] 2); lia]. Defined.

Example chunkArray_5_2 :
  Js.chunkArray [1; 2; 3; 4; 5] 2 = Some [[1; 2]; [3; 4]; [5]].
Proof. reflexivity. Qed.

(** Size 0 never leaves the loop. *)
Example chunkArray_size_0 : Js.chunkArray [1; 2; 3] 0 = None.
Proof. reflexivity. Qed.

(** ** The monad *)

Section AsyncFacts.
Context {S : Type}.

Lemma bind_Ok {A B} (m : M S A) (k : A → M S B) s a s' :
  m s = (Ok a, s') → bind m k s = k a s'.
Proof. unfold bind. by intros ->. Qed.

Lemma bind_Throw {A B} (m : M S A) (k : A → M S B) s e s' :
  m s = (Throw e, s') → bind m k s = (Throw e, s').
Proof. unfold bind. by intros ->. Qed.

Lemma bind_Hang {A B} (m : M S A) (k : A → M S B) s s' :
  m s = (Hang, s') → bind m k s = (Hang, s').
Proof. unfold bind. by intros ->. Qed.

Lemma bind_assoc {A B C} (m : M S A) (k : A → M S B) (h : B → M S C) s :
  bind (bind m k) h s = bind m (λ a, bind (k a) h) s.
Proof. unfold bind. destruct (m s) as [[a|e|] s']; done. Qed.

Lemma bind_ext {A B} (m : M S A) (k k' : A → M S B) s :
  (∀ a s', k a s' = k' a s') → bind m k s = bind m k' s.
Proof. intros Hk. unfold bind. destruct (m s) as [[a|e|] s']; [apply Hk|done|done]. Qed.

Lemma forEach_app {A} (xs ys : list A) (body : A → M S unit) s :
  forEach (xs ++ ys) body s = bind (forEach xs body) (λ _, forEach ys body) s.
Proof.
  revert s. induction xs as [|x xs IH]; intros s; simpl.
  - done.
  - rewrite bind_assoc. apply bind_ext. intros _ s'. apply IH.
Qed.

Lemma forEach_ext {A} (xs : list A) (f g : A → M S unit) s :
  (∀ x s, f x s = g x s) → forEach xs f s = forEach xs g s.
Proof.
  intros Hfg. revert s. induction xs as [|x xs IH]; intros s; simpl; [done|].
  unfold bind at 1. rewrite Hfg. unfold bind.
  destruct (g x s) as [[[]|e|] s']; [apply IH|done|done].
Qed.

(** Nested loops over chunks are one loop over their concatenation. *)
Lemma forEach_concat {A} (xss : list (list A)) (body : A → M S unit) s :
  forEach xss (λ xs, forEach xs body) s = forEach (concat xss) body s.
Proof.
  revert s. induction xss as [|xs xss IH]; intros s; simpl; [done|].
  rewrite forEach_app. apply bind_ext. intros _ s'. apply IH.
Qed.

End AsyncFacts.

(** ** The download stage *)

Section DownloadFacts.
Import Build.
Context (w : World).

Lemma downloadItem_spec r s :
  ∃ s', downloadItem w r s = (Ok tt, s') ∧ DownloadTurn w r s s'.
Proof.
  unfold downloadItem, bothSettled, requestMark, storeMark, downloadBgm, settle,
    bind, get, emit, pushError, modify, await, ret, throw.
  destruct (markResponseLate w r);
    (destruct (ofetchMark w r) as [buf|e1] eqn:Hfetch;
       [destruct (writeMark w r) as [[]|e1] eqn:Hwrite|]);
    destruct (ytdlSave w r) as [[]|e2] eqn:Hsave; simpl;
    (eexists; split; [reflexivity|]);
    (split; unfold downloadErrors, markSettled, bgmSettled, fetchesFor;
     rewrite ?Hfetch, ?Hwrite, ?Hsave; simpl; try reflexivity;
     rewrite ?List.filter_app; simpl; rewrite ?app_nil_r, <- ?app_assoc; reflexivity).
Qed.

(** When the response to the mark request is there before the delay of the
    track download is over, the turn is [downloadMark] to its end and then
    [downloadBgm]. *)
Lemma bothSettled_in_time r item s :
  markResponseLate w r = false →
  bothSettled w r item s
  = (markResult <- settle (downloadMark w r item) ;;
     bgmResult <- settle (downloadBgm w r item) ;;
     ret (markResult, bgmResult)) s.
Proof.
  intros Hlate. unfold bothSettled, downloadMark, requestMark. rewrite Hlate.
  unfold settle, bind, emit, modify, ret. simpl.
  by destruct (storeMark w r item _) as [[| |] ?].
Qed.

Lemma deref_objects s s' r : objects s' = objects s → deref s' r = deref s r.
Proof. unfold deref. by intros ->. Qed.

Lemma forEach_download l s :
  ∃ s', forEach l (downloadItem w) s = (Ok tt, s') ∧ DownloadRun w l s s'.
Proof.
  revert s. induction l as [|r l IH]; intros s.
  - exists s. split; [done|].
    split; simpl; rewrite ?app_nil_r; try done.
    all: intros r Hr; by apply elem_of_nil in Hr.
  - destruct (downloadItem_spec r s) as (s1 & Hturn & T).
    destruct (IH s1) as (s2 & Hrest & R).
    exists s2. split.
    { simpl. rewrite (bind_Ok _ _ _ _ _ Hturn). exact Hrest. }
    destruct T as [To Tm Tdm Tdb Te Tf Tw], R as [Ro Rm Rdm Rdb Re Rf Rw Rma Rba].
    assert (∀ r', deref s1 r' = deref s r') as Hderef
      by (intros r'; by apply deref_objects).
    assert (downloadedMarks s ⊆ downloadedMarks s1) as Hms
      by (rewrite Tdm; destruct (markSettled w r); [apply union_subseteq_r|done]).
    assert (downloadedBgms s ⊆ downloadedBgms s1) as Hbs
      by (rewrite Tdb; destruct (bgmSettled w r); [apply union_subseteq_r|done]).
    split.
    + congruence.
    + congruence.
    + by etrans.
    + by etrans.
    + rewrite Re, Te, <- app_assoc. simpl.
      do 2 f_equal. apply flat_map_ext. intros r'. by rewrite Hderef.
    + rewrite Rf, Tf, <- app_assoc.
      change (flat_map (λ r0, fetchesFor w (deref s r0)) (r :: l))
        with (fetchesFor w (deref s r) ++ flat_map (λ r0, fetchesFor w (deref s r0)) l).
      do 2 f_equal. apply flat_map_ext. intros r'. by rewrite Hderef.
    + congruence.
    + intros r' Hin Hok. apply elem_of_cons in Hin as [->|Hin].
      * apply Rdm. rewrite Tdm, Hok. apply elem_of_union_l. by apply elem_of_singleton.
      * rewrite <- Hderef. by apply Rma.
    + intros r' Hin Hok. apply elem_of_cons in Hin as [->|Hin].
      * apply Rdb. rewrite Tdb, Hok. apply elem_of_union_l. by apply elem_of_singleton.
      * rewrite <- Hderef. by apply Rba.
Qed.

Lemma downloadStage_spec outputData s :
  ∃ s', downloadStage w outputData s = (Ok tt, s')
        ∧ DownloadRun w (toDownloadList s outputData) s s'.
Proof. apply forEach_download. Qed.
End DownloadFacts.

Section DownloadClaims.
Import Build.

Lemma map_lookup_total_seq (items : list OutputDataItem) :
  map (λ r, items !!! r) (seq 0 (length items)) = items.
Proof.
  apply list_eq. intros i.
  change (map (λ r, items !!! r) (seq 0 (length items)))
    with ((λ r, items !!! r) <$> seq 0 (length items)).
  rewrite list_lookup_fmap.
  destruct (decide (i < length items)) as [Hi|Hi].
  - rewrite lookup_seq_lt by done. simpl.
    symmetry. by apply list_lookup_lookup_total_lt.
  - rewrite lookup_seq_ge by lia. simpl.
    symmetry. apply lookup_ge_None. lia.
Qed.

Lemma filter_map_comm {A B} (f : A → B) (P : B → bool) (l : list A) :
  map f (List.filter (λ x, P (f x)) l) = List.filter P (map f l).
Proof.
  induction l as [|x l IH]; simpl; [done|].
  destruct (P (f x)); simpl; by rewrite IH.
Qed.

Lemma filter_none {A} (f : A → bool) (l : list A) :
  (∀ x, In x l → f x = false) → List.filter f l = [].
Proof.
  induction l as [|x l IH]; intros Hf; simpl; [done|].
  rewrite (Hf x) by (by left). apply IH. intros y Hy. apply Hf. by right.
Qed.

Lemma toDownloadList_items catalog ms bs :
  let s := downloadStart catalog ms bs in
  map (deref s) (toDownloadList s (seq 0 (length (project catalog))))
  = List.filter (λ item, negb (present ms bs item)) (project catalog).
Proof.
  intros s. unfold toDownloadList.
  rewrite <- (map_lookup_total_seq (project catalog)) at 2.
  rewrite <- filter_map_comm. f_equal.
  apply List.filter_ext. intros r.
  unfold present, isMarkDownloaded, isBgmDownloaded, deref. simpl.
  by rewrite negb_andb.
Qed.

(** C2, as the code has it: the download stage ends, and its requests are
    exactly one mark request followed by one track request for every item
    that was not fully present at the start, in catalog order, whichever of
    the two files was missing; items fully present are not requested. *)
Theorem download_requests_both w catalog ms bs :
  ∃ s', download w catalog ms bs = (Ok tt, s')
        ∧ List.filter isFetch (events s')
          = flat_map (fetchesFor w)
              (List.filter (λ item, negb (present ms bs item)) (project catalog)).
Proof.
  unfold download.
  destruct (downloadStage_spec w (seq 0 (length (project catalog)))
              (downloadStart catalog ms bs)) as (s' & Hrun & R).
  exists s'. split; [exact Hrun|].
  rewrite (run_fetches _ _ _ _ R). simpl.
  rewrite <- toDownloadList_items, flat_map_concat_map, flat_map_concat_map.
  by rewrite map_map.
Qed.

(** C2, counterexample: the mark of the only item is in the index and its
    track is not; the stage still requests the mark. *)
Lemma download_refetches_present_mark :
  let catalog := [Samples.entry "FloralLife" "henesys" "yt-floral"] in
  let ms : gset string := {["henesys.png"]} in
  (∀ item, item ∈ project catalog → getMarkFilename item ∈ ms)
  ∧ List.filter isMarkFetch (events (snd (download Samples.markOnDisk catalog ms ∅)))
    = [OfetchMark "https://maplestory-music.github.io/mark/henesys.png"].
Proof.
  split; [|by vm_compute].
  intros item Hin. apply list_elem_of_singleton in Hin as ->.
  by apply elem_of_singleton.
Qed.

(** The index a completed download stage leaves behind holds every file
    whose download settled well, and every file that was there before. *)
Lemma download_complete w catalog ms bs :
  (∀ r, markSettled w r = Fulfilled tt) →
  (∀ r, bgmSettled w r = Fulfilled tt) →
  let s1 := snd (download w catalog ms bs) in
  ∀ item, item ∈ project catalog →
    getMarkFilename item ∈ downloadedMarks s1
    ∧ getBgmFilename item ∈ downloadedBgms s1.
Proof.
  intros Hmark Hbgm s1 item Hin.
  apply list_elem_of_lookup in Hin as [r Hr].
  set (s0 := downloadStart catalog ms bs).
  set (refs := seq 0 (length (project catalog))).
  destruct (downloadStage_spec w refs s0) as (s' & Hrun & R).
  assert (s1 = s') as -> by (unfold s1, download; fold refs s0; by rewrite Hrun).
  assert (deref s0 r = item) as Hitem.
  { unfold deref. simpl. by apply list_lookup_total_correct. }
  assert (r ∈ refs) as Hrefs.
  { apply elem_of_seq. apply lookup_lt_Some in Hr. lia. }
  destruct (decide (r ∈ toDownloadList s0 refs)) as [Htodo|Hskip].
  - rewrite <- Hitem. split.
    + by apply (run_mark_added _ _ _ _ R).
    + by apply (run_bgm_added _ _ _ _ R).
  - assert (isMarkDownloaded s0 item = true ∧ isBgmDownloaded s0 item = true) as [Hm Hb].
    { rewrite <- Hitem.
      destruct (isMarkDownloaded s0 (deref s0 r)) eqn:Em;
        destruct (isBgmDownloaded s0 (deref s0 r)) eqn:Eb; try done;
        exfalso; apply Hskip; unfold toDownloadList;
        apply list_elem_of_In, List.filter_In; rewrite Em, Eb;
        (split; [by apply list_elem_of_In|done]). }
    apply bool_decide_eq_true in Hm, Hb. split.
    + by apply (run_downloadedMarks _ _ _ _ R).
    + by apply (run_downloadedBgms _ _ _ _ R).
Qed.

(** C3: when the download stage has run to completion and left every
    item's mark and track file names in the Local Asset Index, a second
    download stage against the same catalog and that index has an empty
    to-download list and makes no call at all: zero mark requests, zero
    track requests. *)
Theorem download_idempotent w w' catalog ms bs :
  let s1 := snd (download w catalog ms bs) in
  (∀ item, item ∈ project catalog →
     getMarkFilename item ∈ downloadedMarks s1
     ∧ getBgmFilename item ∈ downloadedBgms s1) →
  let s := downloadStart catalog (downloadedMarks s1) (downloadedBgms s1) in
  toDownloadList s (seq 0 (length (project catalog))) = []
  ∧ download w' catalog (downloadedMarks s1) (downloadedBgms s1) = (Ok tt, s)
  ∧ List.filter isMarkFetch (events s) = []
  ∧ List.filter isBgmFetch (events s) = [].
Proof.
  intros s1 Hall s.
  assert (toDownloadList s (seq 0 (length (project catalog))) = []) as Hnil.
  { unfold toDownloadList. apply filter_none. intros r Hr.
    apply List.in_seq in Hr.
    assert (deref s r ∈ project catalog) as Hin.
    { unfold deref. simpl. apply list_elem_of_lookup_total_2. lia. }
    destruct (Hall _ Hin) as [Hm Hb].
    unfold isMarkDownloaded, isBgmDownloaded. simpl.
    by rewrite !bool_decide_eq_true_2. }
  split; [exact Hnil|]. split; [|done].
  unfold download, downloadStage, bind, get. fold s. by rewrite Hnil.
Qed.

(** C6: when an item's mark download fails and its track download
    succeeds, its turn of the download loop ends normally, puts the
    track's file name in the Local Asset Index, and appends exactly one
    record, of kind mark; the file name is still in the index when the
    whole stage is over. *)
Theorem mark_failure_isolated w r reason s :
  markSettled w r = Rejected reason →
  bgmSettled w r = Fulfilled tt →
  (∃ s', downloadItem w r s = (Ok tt, s')
         ∧ getBgmFilename (deref s r) ∈ downloadedBgms s'
         ∧ errorLogs s'
           = errorLogs s
             ++ [{| type := Mark;
                    message := "Failed to download mark for "
                               +:+ mark (data (deref s r)) +:+ ": " +:+ reason |}])
  ∧ (∀ outputData, r ∈ toDownloadList s outputData →
       ∃ s', downloadStage w outputData s = (Ok tt, s')
             ∧ getBgmFilename (deref s r) ∈ downloadedBgms s').
Proof.
  intros Hmark Hbgm. split.
  - destruct (downloadItem_spec w r s) as (s' & Hturn & T).
    exists s'. split; [exact Hturn|]. split.
    + rewrite (turn_downloadedBgms _ _ _ _ T), Hbgm.
      apply elem_of_union_l. by apply elem_of_singleton.
    + rewrite (turn_errorLogs _ _ _ _ T). unfold downloadErrors.
      by rewrite Hmark, Hbgm, app_nil_r.
  - intros outputData Hin.
    destruct (downloadStage_spec w outputData s) as (s' & Hrun & R).
    exists s'. split; [exact Hrun|].
    by apply (run_bgm_added _ _ _ _ R).
Qed.
End DownloadClaims.

Lemma download_idempotent_witness :
  let catalog := Build.Samples.catalog3 in
  let s1 := snd (Build.download Build.Samples.calm catalog ∅ ∅) in
  let s := Build.downloadStart catalog (Build.downloadedMarks s1) (Build.downloadedBgms s1) in
  Build.toDownloadList s (seq 0 (length (Build.project catalog))) = []
  ∧ Build.download Build.Samples.markDown catalog
      (Build.downloadedMarks s1) (Build.downloadedBgms s1) = (Ok tt, s)
  ∧ List.filter Build.isMarkFetch (Build.events s) = []
  ∧ List.filter Build.isBgmFetch (Build.events s) = [].
Proof.
  apply (download_idempotent Build.Samples.calm Build.Samples.markDown
           Build.Samples.catalog3 ∅ ∅).
  intros item Hin.
  apply elem_of_cons in Hin as [->|Hin];
    [|apply list_elem_of_singleton in Hin as ->];
    split; refine (bool_decide_unpack _ _); vm_compute; exact I.
Defined.

Lemma mark_failure_isolated_witness :
  let w := Build.Samples.markDown in
  let s := Build.downloadStart Build.Samples.catalog3 ∅ ∅ in
  Build.markSettled w 0 = Rejected "404 Not Found"
  ∧ Build.bgmSettled w 0 = Fulfilled tt
  ∧ (∃ s', Build.downloadItem w 0 s = (Ok tt, s')
           ∧ "FloralLife.mp3" ∈ Build.downloadedBgms s'
           ∧ Build.errorLogs s'
             = [{| Build.type := Build.Mark;
                   Build.message := "Failed to download mark for henesys: 404 Not Found" |}])
  ∧ (∀ outputData, 0 ∈ Build.toDownloadList s outputData →
       ∃ s', Build.downloadStage w outputData s = (Ok tt, s')
             ∧ "FloralLife.mp3" ∈ Build.downloadedBgms s').
Proof.
  split; [reflexivity|]. split; [reflexivity|].
  apply (mark_failure_isolated Build.Samples.markDown 0 "404 Not Found"
           (Build.downloadStart Build.Samples.catalog3 ∅ ∅));
    reflexivity.
Defined.

(** ** The batched stages *)

Section BatchFacts.
Import Js Build.
Context (w : World).

Lemma inBatches_spec outputData (runBatch : list Ref → M State unit) s :
  ∃ batches,
    chunkArray outputData 50 = Some batches
    ∧ concat batches = outputData
    ∧ inBatches outputData runBatch s = forEach batches runBatch s.
Proof.
  unfold inBatches.
  destruct (chunkArray_total outputData 50) as (batches & -> & Hcat); [lia|].
  by exists batches.
Qed.

Lemma enrichItem_resume_spec r s :
  ∃ s', enrichItem_resume w r s = (Ok tt, s') ∧ EnrichTurn w r s s'.
Proof.
  unfold enrichItem_resume, probed, try_catch, setDuration, bind, get,
    pushError, modify, ret, throw.
  destruct (ffprobe w r) as [err|d] eqn:Hprobe; simpl;
    (eexists; split; [reflexivity|]);
    (split; unfold settledDuration, probeErrors; rewrite ?Hprobe; simpl;
     rewrite ?app_nil_r; reflexivity).
Qed.

Lemma set_duration_twice d (o : option OutputDataItem) :
  set_duration d <$> (set_duration d <$> o) = set_duration d <$> o.
Proof. by destruct o. Qed.

Lemma enriched_lookup l os k :
  enriched w l os !! k
  = if bool_decide (k ∈ l)
    then set_duration (settledDuration w k) <$> os !! k
    else os !! k.
Proof.
  revert os. induction l as [|r l IH]; intros os; simpl; [done|].
  fold (enriched w l (alter (set_duration (settledDuration w r)) r os)).
  rewrite IH. destruct (decide (k = r)) as [->|Hne].
  - rewrite list_lookup_alter_eq.
    rewrite (bool_decide_eq_true_2 (r ∈ r :: l)) by (apply elem_of_cons; by left).
    destruct (bool_decide (r ∈ l)); [|done]. apply set_duration_twice.
  - rewrite list_lookup_alter_ne by done.
    destruct (decide (k ∈ l)) as [Hin|Hout].
    + rewrite !bool_decide_eq_true_2; [done| |done]. apply elem_of_cons. by right.
    + rewrite !bool_decide_eq_false_2; [done| |done].
      intros Hin. apply elem_of_cons in Hin as [?|?]; done.
Qed.

(** The store the enricher leaves does not depend on the order in which
    the probes are done. *)
Lemma enriched_Permutation l l' os :
  l ≡ₚ l' → enriched w l os = enriched w l' os.
Proof.
  intros Hperm. apply list_eq. intros k. rewrite !enriched_lookup.
  by rewrite (bool_decide_ext (k ∈ l) (k ∈ l')) by (by rewrite Hperm).
Qed.

Lemma enriched_app l l' os :
  enriched w (l ++ l') os = enriched w l' (enriched w l os).
Proof. unfold enriched. apply foldl_app. Qed.

Lemma data_deref_alter d (r r' : nat) (os : list OutputDataItem) :
  data (alter (set_duration d) r os !!! r') = data (os !!! r').
Proof.
  rewrite list_lookup_total_alter. case_decide as H; [|done].
  by destruct H as [-> _].
Qed.

Lemma data_deref_enriched l os (r : nat) :
  data (enriched w l os !!! r) = data (os !!! r).
Proof.
  revert os. induction l as [|r' l IH]; intros os; simpl; [done|].
  fold (enriched w l (alter (set_duration (settledDuration w r')) r' os)).
  by rewrite IH, data_deref_alter.
Qed.

Lemma pass_data order calls s s' r :
  EnrichPass w order calls s s' → data (deref s' r) = data (deref s r).
Proof. intros [Ho _ _ _ _ _]. unfold deref. rewrite Ho. apply data_deref_enriched. Qed.

Lemma probeErrors_data r item item' :
  data item = data item' → probeErrors w r item = probeErrors w r item'.
Proof. unfold probeErrors. by intros ->. Qed.

Lemma probeCall_data item item' :
  data item = data item' → probeCall w item = probeCall w item'.
Proof. unfold probeCall, getBgmFilename. by intros ->. Qed.

Lemma EnrichPass_refl s : EnrichPass w [] [] s s.
Proof. split; simpl; by rewrite ?app_nil_r. Qed.

Lemma EnrichPass_trans o1 c1 o2 c2 s s1 s2 :
  EnrichPass w o1 c1 s s1 → EnrichPass w o2 c2 s1 s2 →
  EnrichPass w (o1 ++ o2) (c1 ++ c2) s s2.
Proof.
  intros H1 H2. pose proof (λ r, pass_data _ _ _ _ r H1) as Hdata.
  destruct H1 as [O1 Dm1 Db1 M1 E1 V1], H2 as [O2 Dm2 Db2 M2 E2 V2].
  split; try congruence.
  - by rewrite enriched_app, O2, O1.
  - rewrite E2, E1, flat_map_app, <- app_assoc. do 2 f_equal.
    apply flat_map_ext. intros r. by apply probeErrors_data.
  - rewrite V2, V1, map_app, <- app_assoc. do 2 f_equal.
    apply map_ext. intros r. by apply probeCall_data.
Qed.

Lemma enrichItem_start_spec r s :
  ∃ s', enrichItem_start w r s = (Ok tt, s') ∧ EnrichPass w [] [r] s s'.
Proof.
  unfold enrichItem_start, startProbe, bind, get, emit, modify.
  eexists. split; [reflexivity|]. split; simpl; by rewrite ?app_nil_r.
Qed.

Lemma forEach_start l s :
  ∃ s', forEach l (enrichItem_start w) s = (Ok tt, s') ∧ EnrichPass w [] l s s'.
Proof.
  revert s. induction l as [|r l IH]; intros s.
  - exists s. split; [done|]. apply EnrichPass_refl.
  - destruct (enrichItem_start_spec r s) as (s1 & Hstart & P1).
    destruct (IH s1) as (s2 & Hrest & P2).
    exists s2. split.
    { simpl. rewrite (bind_Ok _ _ _ _ _ Hstart). exact Hrest. }
    apply (EnrichPass_trans [] [r] [] l s s1 s2 P1 P2).
Qed.

Lemma forEach_resume l s :
  ∃ s', forEach l (enrichItem_resume w) s = (Ok tt, s') ∧ EnrichPass w l [] s s'.
Proof.
  revert s. induction l as [|r l IH]; intros s.
  - exists s. split; [done|]. apply EnrichPass_refl.
  - destruct (enrichItem_resume_spec r s) as (s1 & Hturn & [To Tdm Tdb Tm Te Tv]).
    destruct (IH s1) as (s2 & Hrest & P2).
    exists s2. split.
    { simpl. rewrite (bind_Ok _ _ _ _ _ Hturn). exact Hrest. }
    apply (EnrichPass_trans [r] [] l [] s s1 s2); [|exact P2].
    split; simpl; rewrite ?app_nil_r; done.
Qed.

Lemma doneAfter_Permutation r done : doneAfter w r done ≡ₚ r :: done.
Proof.
  induction done as [|x done IH]; simpl; [done|].
  destruct (probeLatency w r <=? probeLatency w x)%nat; [done|].
  by rewrite IH, Permutation_swap.
Qed.

(** Every probe of a batch is done at some point, and once. *)
Lemma completionOrder_Permutation batch : completionOrder w batch ≡ₚ batch.
Proof.
  induction batch as [|r batch IH]; simpl; [done|].
  by rewrite doneAfter_Permutation, IH.
Qed.

Lemma enrichOrder_Permutation outputData : enrichOrder w outputData ≡ₚ outputData.
Proof.
  unfold enrichOrder.
  destruct (chunkArray_total outputData 50) as (batches & -> & <-); [lia|].
  clear. induction batches as [|b bs IH]; simpl; [done|].
  by rewrite completionOrder_Permutation, IH.
Qed.

Lemma enrichBatch_spec batch s :
  ∃ s', enrichBatch w batch s = (Ok tt, s')
    ∧ EnrichPass w (completionOrder w batch) batch s s'.
Proof.
  destruct (forEach_start batch s) as (s1 & Hstart & P1).
  destruct (forEach_resume (completionOrder w batch) s1) as (s2 & Hresume & P2).
  exists s2. split.
  - unfold enrichBatch. by rewrite (bind_Ok _ _ _ _ _ Hstart).
  - apply (EnrichPass_trans [] batch (completionOrder w batch) [] s s1 s2) in P2;
      [|exact P1].
    by rewrite app_nil_r in P2.
Qed.

(** The callback of the enricher is its two parts, one after the other. *)
Lemma enrichItem_split r s :
  enrichItem w r s = (enrichItem_start w r ;;; enrichItem_resume w r) s.
Proof.
  unfold enrichItem, enrichItem_start, enrichItem_resume, getBgmDuration, startProbe,
    probed, try_catch, setDuration, bind, get, emit, pushError, modify, ret, throw.
  by destruct (ffprobe w r).
Qed.

(** A batch of one item is the callback on its own. *)
Lemma enrichBatch_single r s : enrichBatch w [r] s = enrichItem w r s.
Proof.
  rewrite enrichItem_split. unfold enrichBatch, completionOrder. simpl.
  destruct (enrichItem_start_spec r s) as (s1 & Hstart & _).
  destruct (enrichItem_resume_spec r s1) as (s2 & Hresume & _).
  unfold bind, ret. by rewrite Hstart, Hresume.
Qed.

Lemma forEach_enrichBatch batches s :
  ∃ s', forEach batches (enrichBatch w) s = (Ok tt, s')
    ∧ EnrichPass w (concat (map (completionOrder w) batches)) (concat batches) s s'.
Proof.
  revert s. induction batches as [|b bs IH]; intros s.
  - exists s. split; [done|]. apply EnrichPass_refl.
  - destruct (enrichBatch_spec b s) as (s1 & Hbatch & P1).
    destruct (IH s1) as (s2 & Hrest & P2).
    exists s2. split.
    { simpl. rewrite (bind_Ok _ _ _ _ _ Hbatch). exact Hrest. }
    apply (EnrichPass_trans _ _ _ _ s s1 s2 P1 P2).
Qed.

(** The enricher as a whole: it calls the probes in catalog order and goes
    on with the items as the probes of each batch are done. *)
Lemma enrichStage_exact outputData s :
  ∃ s', enrichStage w outputData s = (Ok tt, s')
    ∧ EnrichPass w (enrichOrder w outputData) outputData s s'.
Proof.
  unfold enrichStage, enrichOrder.
  destruct (inBatches_spec outputData (enrichBatch w) s) as (batches & -> & <- & ->).
  apply forEach_enrichBatch.
Qed.

Lemma probeErrors_quiet (l : list Ref) s :
  (∀ r, r ∈ l → ∃ d, ffprobe w r = ProbeOk d) →
  flat_map (λ r, probeErrors w r (deref s r)) l = [].
Proof.
  intros Hok. induction l as [|r l IH]; simpl; [done|].
  rewrite IH by (intros r' Hr'; apply Hok, elem_of_cons; by right).
  unfold probeErrors. destruct (Hok r) as [d ->]; [apply elem_of_cons; by left|done].
Qed.

Lemma enrichStage_spec outputData s :
  ∃ s', enrichStage w outputData s = (Ok tt, s') ∧ EnrichRun w outputData s s'.
Proof.
  destruct (enrichStage_exact outputData s) as (s' & Hrun & [Po Pdm Pdb Pm Pe Pv]).
  pose proof (enrichOrder_Permutation outputData) as Hperm.
  exists s'. split; [done|]. split; try done.
  - by rewrite Po, (enriched_Permutation _ _ _ Hperm).
  - intros Hok. rewrite Pe, probeErrors_quiet; [by rewrite app_nil_r|].
    intros r Hr. apply Hok. by rewrite <- Hperm.
  - rewrite Pv, List.filter_app. clear. induction outputData; simpl; by rewrite ?app_nil_r.
  - rewrite Pv, List.filter_app. clear. induction outputData; simpl; by rewrite ?app_nil_r.
Qed.
End BatchFacts.

Section DurationClaims.
Import Js Build.

Lemma length_enriched w l os : length (enriched w l os) = length os.
Proof.
  revert os. induction l as [|r l IH]; intros os; simpl; [done|].
  fold (enriched w l (alter (set_duration (settledDuration w r)) r os)).
  by rewrite IH, length_alter.
Qed.

(** C5 does not hold of the code: a probe that succeeds and reports the
    text N/A as the duration of the first item's file leaves that text on
    the item, since [|| 0] replaces falsy values only.  After the Duration
    Enricher the item's duration is not a number, against the declared type
    of the field, and the manifest of the run carries the text. *)
Theorem duration_text_after_enrich :
  let w := Samples.durationUnknown in
  let s := downloadStart Samples.catalog3 ∅ ∅ in
  let s' := snd (enrichStage w (seq 0 (length (objects s))) s) in
  ffprobe w 0 = ProbeOk (Str "N/A")
  ∧ fst (enrichStage w (seq 0 (length (objects s))) s) = Ok tt
  ∧ duration <$> objects s' !! 0 = Some (Str "N/A")
  ∧ isNumber (Str "N/A") = false
  ∧ fst (run w) = Ok tt
  ∧ (duration <$> (manifestOf (events (snd (run w))) ≫= λ m, Manifest.bgms m !! 0))
    = Some (Str "N/A").
Proof.
  split; [reflexivity|]. split; [by vm_compute|]. split; [by vm_compute|].
  split; [reflexivity|]. split; by vm_compute.
Qed.
End DurationClaims.

(** ** Promise.all with callbacks that may reject *)

Section PromiseAllFacts.
Context {S A : Type} (body : A → M S unit).
Context (I : S → Prop) (rejection : A → option string).
Hypothesis body_settles :
  ∀ x s, I s → ∃ s', I s' ∧ body x s = (settled (rejection x), s').

Lemma allFrom_settles xs first s :
  I s →
  ∃ s', I s'
    ∧ allFrom first xs body s
      = (settled (match first with
                  | Some e => Some e
                  | None => firstRejection rejection xs
                  end), s').
Proof.
  revert first s. induction xs as [|x xs IH]; intros first s Hs; simpl.
  - exists s. split; [done|]. by destruct first.
  - destruct (body_settles x s Hs) as (s1 & Hs1 & Hx).
    unfold bind, settle. rewrite Hx. unfold firstRejection. simpl.
    destruct (rejection x) as [e|]; simpl.
    + destruct first as [e0|].
      * destruct (IH (Some e0) s1 Hs1) as (s' & Hs' & ->). by exists s'.
      * destruct (IH (Some e) s1 Hs1) as (s' & Hs' & ->). by exists s'.
    + destruct (IH first s1 Hs1) as (s' & Hs' & ->). by exists s'.
Qed.

Lemma firstRejection_app xs ys :
  firstRejection rejection (xs ++ ys)
  = match firstRejection rejection xs with
    | Some e => Some e
    | None => firstRejection rejection ys
    end.
Proof.
  unfold firstRejection. rewrite omap_app.
  by destruct (omap rejection xs).
Qed.

Lemma batches_settle (batches : list (list A)) s :
  I s →
  ∃ s', I s'
    ∧ forEach batches (λ batch, promiseAll batch body) s
      = (settled (firstRejection rejection (concat batches)), s').
Proof.
  revert s. induction batches as [|batch batches IH]; intros s Hs; simpl.
  - by exists s.
  - destruct (allFrom_settles batch None s Hs) as (s1 & Hs1 & Hbatch).
    unfold promiseAll at 1. unfold bind. rewrite Hbatch, firstRejection_app.
    destruct (firstRejection rejection batch) as [e|]; simpl.
    + by exists s1.
    + by apply IH.
Qed.

Lemma firstRejection_Some xs x e :
  x ∈ xs → rejection x = Some e → ∃ e', firstRejection rejection xs = Some e'.
Proof.
  intros Hin Hx. unfold firstRejection.
  assert (e ∈ omap rejection xs) as He by (apply list_elem_of_omap; eauto).
  destruct (omap rejection xs) as [|e' l]; [by apply elem_of_nil in He|].
  by exists e'.
Qed.

Lemma firstRejection_inv xs e :
  firstRejection rejection xs = Some e → ∃ x, x ∈ xs ∧ rejection x = Some e.
Proof.
  unfold firstRejection. intros Hhead.
  assert (e ∈ omap rejection xs) as He.
  { destruct (omap rejection xs) as [|e' l]; [done|].
    injection Hhead as ->. apply elem_of_cons. by left. }
  by apply list_elem_of_omap in He.
Qed.
End PromiseAllFacts.

(** ** The mark encoder and the run as a whole *)

Section RunFacts.
Import Build.
Context (w : World).

Lemma Untouched_refl s : Untouched s s.
Proof. by split. Qed.

Lemma Untouched_trans s1 s2 s3 : Untouched s1 s2 → Untouched s2 s3 → Untouched s1 s3.
Proof. intros [] []. split; congruence. Qed.

Lemma readRejection_objects s s' r :
  objects s' = objects s → readRejection w s' r = readRejection w s r.
Proof. intros H. unfold readRejection. by rewrite (deref_objects _ _ _ H). Qed.

Lemma encodeItem_spec r s :
  ∃ s', Untouched s s' ∧ encodeItem w r s = (settled (readRejection w s r), s').
Proof.
  unfold encodeItem, readRejection, bind, get, emit, modify, await, ret, throw.
  destruct (readFileSync w _) as [buf|e]; simpl;
    (eexists; split; [|reflexivity]);
    (split; simpl; rewrite ?List.filter_app, ?app_nil_r; simpl;
     rewrite ?app_nil_r; reflexivity).
Qed.

Lemma encodeStage_spec outputData s :
  ∃ s', Untouched s s'
    ∧ encodeStage w outputData s
      = (settled (firstRejection (readRejection w s) outputData), s').
Proof.
  unfold encodeStage, inBatches.
  destruct (chunkArray_total outputData 50) as (batches & -> & Hcat); [lia|].
  rewrite <- Hcat.
  apply (batches_settle (encodeItem w) (Untouched s) (readRejection w s));
    [|apply Untouched_refl].
  intros r s1 Hs1. destruct (encodeItem_spec r s1) as (s2 & Hs2 & Hr).
  exists s2. split; [by eapply Untouched_trans|].
  rewrite Hr. by rewrite (readRejection_objects s s1) by apply Hs1.
Qed.

Lemma run_without_catalog e :
  ofetchCatalog w = Rejected e →
  run w = (Throw e, with_events [OfetchCatalog] (with_index (scanMarks w) (scanBgms w) init)).
Proof.
  intros Hcat. unfold run, main, loadCatalog, bind, prepareDirs, emit, modify.
  by rewrite Hcat.
Qed.

Lemma run_stages catalog :
  ofetchCatalog w = Fulfilled catalog →
  let outputData := seq 0 (length (project catalog)) in
  let s0 := loaded w catalog in
  ∃ s1 s2 s3,
    loadCatalog w init = (Ok outputData, s0)
    ∧ downloadStage w outputData s0 = (Ok tt, s1)
    ∧ DownloadRun w (toDownloadList s0 outputData) s0 s1
    ∧ enrichStage w outputData s1 = (Ok tt, s2)
    ∧ EnrichRun w outputData s1 s2
    ∧ Untouched (with_marks ∅ s2) s3
    ∧ run w = match firstRejection (readRejection w s2) outputData with
              | Some e => (Throw e, s3)
              | None => finish w outputData s3
              end.
Proof.
  intros Hcat outputData s0.
  assert (loadCatalog w init = (Ok outputData, s0)) as Hload.
  { unfold loadCatalog, bind, prepareDirs, emit, modify. by rewrite Hcat. }
  destruct (downloadStage_spec w outputData s0) as (s1 & H1 & R1).
  destruct (enrichStage_spec w outputData s1) as (s2 & H2 & R2).
  destruct (encodeStage_spec outputData (with_marks ∅ s2)) as (s3 & R3 & H3).
  exists s1, s2, s3. repeat (split; [done|]).
  unfold run, main.
  rewrite (bind_Ok _ _ _ _ _ Hload), (bind_Ok _ _ _ _ _ H1), (bind_Ok _ _ _ _ _ H2).
  unfold bind at 1. unfold modify at 1.
  unfold bind at 1. rewrite H3.
  change (readRejection w (with_marks ∅ s2)) with (readRejection w s2).
  by destruct (firstRejection (readRejection w s2) outputData).
Qed.

Lemma flat_map_nil {A B} (f : A → list B) (l : list A) :
  (∀ x, x ∈ l → f x = []) → flat_map f l = [].
Proof.
  induction l as [|x l IH]; intros Hf; simpl; [done|].
  rewrite Hf by (apply elem_of_cons; by left).
  apply IH. intros y Hy. apply Hf. apply elem_of_cons. by right.
Qed.

(** [finish] by cases: no record, a log that cannot be written, a log
    that is written. *)
Lemma finish_spec outputData s :
  finish w outputData s
  = match errorLogs s with
    | [] =>
        (outcome (writeManifest w),
         with_events (events s ++ [dataWrite w outputData s]) s)
    | _ :: _ =>
        match writeErrorLog w with
        | Rejected e => (Throw e, with_events (events s ++ [logWrite w s]) s)
        | Fulfilled _ =>
            (outcome (writeManifest w),
             with_events ((events s ++ [logWrite w s]) ++ [dataWrite w outputData s]) s)
        end
    end.
Proof.
  unfold finish, flushErrors, writeData, bind, get, emit, modify, await, ret,
    throw, logWrite, dataWrite, outcome.
  destruct (errorLogs s) as [|e es] eqn:He; simpl.
  - by destruct (writeManifest w) as [[]|].
  - destruct (writeErrorLog w) as [[]|]; simpl; [|reflexivity].
    by destruct (writeManifest w) as [[]|].
Qed.

Lemma run_case : RunCase w.
Proof.
  destruct (ofetchCatalog w) as [catalog|e] eqn:Hcat.
  - destruct (run_stages catalog Hcat)
      as (s1 & s2 & s3 & Hload & H1 & R1 & H2 & R2 & R3 & Hrun).
    assert (Reached w catalog s2 s3) as Hreached.
    { destruct R1 as [Ro1 _ _ _ Re1 _ Rw1 _ _], R2 as [Ro2 _ _ _ Rq2 Rw2 _],
        R3 as [Ro3 Re3 _ _ Rw3 _].
      split; try done.
      - by exists (loaded w catalog), s1.
      - rewrite Ro3. simpl. by rewrite Ro2, Ro1.
      - rewrite Rw3. simpl. by rewrite Rw2, Rw1.
      - intros Hm Hb Hp. rewrite Re3. simpl. rewrite Rq2 by (intros r _; apply Hp).
        rewrite Re1. simpl. apply flat_map_nil. intros r _.
        unfold downloadErrors. by rewrite Hm, Hb. }
    destruct (firstRejection (readRejection w s2) _) as [e|] eqn:Hread.
    + by eapply ReadFailed.
    + by eapply Finished.
  - pose proof (run_without_catalog e Hcat) as Hrun.
    eapply NoCatalog; [done|by rewrite Hrun..].
Qed.
End RunFacts.

(** ** The end of the run: error log and manifest *)

Section FinishClaims.
Import Build.

Lemma manifestOf_writes ev : manifestOf ev = manifestOf (List.filter isWrite ev).
Proof.
  unfold manifestOf. f_equal.
  induction ev as [|e ev IH]; simpl; [done|].
  destruct e; simpl; try apply IH; f_equal; apply IH.
Qed.

(** C1, as the code has it: the error log is flushed before the
    manifest is written.  The writes of a run are at most one error-log
    write followed by at most one manifest write, and the manifest write
    is the last call of the run; a fulfilled run has written the manifest;
    when the error-log write is rejected the run is rejected with that
    reason and the manifest is not written. *)
Theorem error_log_before_manifest w :
  ∃ log data,
    List.filter isWrite (events (snd (run w))) = log ++ data
    ∧ (log = [] ∨ ∃ p c, log = [WriteErrorLog p c])
    ∧ (data = []
       ∨ ∃ p m before, data = [WriteManifest p m]
                       ∧ events (snd (run w)) = before ++ [WriteManifest p m])
    ∧ (fst (run w) = Ok tt → data ≠ [])
    ∧ (∀ e, writeErrorLog w = Rejected e → log ≠ [] →
         fst (run w) = Throw e ∧ data = []).
Proof.
  destruct (run_case w) as [e Hcat Hres Hev|catalog s2 s3 e Hreached Hread Hrun
                           |catalog s2 s3 Hreached Hread Hrun].
  - exists [], []. rewrite Hev, Hres.
    split; [done|]. split; [by left|]. split; [by left|]. by split.
  - exists [], []. rewrite Hrun. simpl. rewrite (reached_writes _ _ _ _ Hreached).
    split; [done|]. split; [by left|]. split; [by left|]. by split.
  - rewrite Hrun, finish_spec. pose proof (reached_writes _ _ _ _ Hreached) as Hw.
    destruct (errorLogs s3) as [|r rs] eqn:Hlogs;
      [|destruct (writeErrorLog w) as [[]|e] eqn:Hlog]; simpl;
      rewrite ?List.filter_app, Hw; simpl.
    + exists [], [dataWrite w (seq 0 (length (project catalog))) s3].
      split; [done|]. split; [by left|]. split; [right; by eexists _, _, _|].
      by split.
    + exists [logWrite w s3], [dataWrite w (seq 0 (length (project catalog))) s3].
      split; [done|]. split; [right; by eexists _, _|].
      split; [right; by eexists _, _, _|]. by split.
    + exists [logWrite w s3], [].
      split; [done|]. split; [right; by eexists _, _|]. split; [by left|].
      split; [done|]. by intros e' [= ->] _.
Qed.

(** C1, counterexample: one probe fails, so there is a record to flush.
    With a log that cannot be written the run is rejected and no manifest
    is written; with a log that can, the error-log write comes first and
    the manifest write second. *)
Lemma error_log_failure_blocks_manifest :
  fst (run Samples.logDown) = Throw "EACCES"
  ∧ List.filter isManifestWrite (events (snd (run Samples.logDown))) = []
  ∧ map isErrorLogWrite (List.filter isWrite (events (snd (run Samples.logDown)))) = [true]
  ∧ fst (run Samples.probeDown) = Ok tt
  ∧ map isManifestWrite (List.filter isWrite (events (snd (run Samples.probeDown))))
    = [false; true].
Proof. by vm_compute. Qed.
Lemma enriched_data w l os : map data (enriched w l os) = map data os.
Proof.
  revert os. induction l as [|r l IH]; intros os; simpl; [done|].
  fold (enriched w l (alter (set_duration (settledDuration w r)) r os)).
  rewrite IH. clear IH. generalize (settledDuration w r) as d. intros d. revert r.
  induction os as [|o os IHos]; intros [|r]; simpl; try done.
  f_equal. apply IHos.
Qed.

Lemma deref_reached w catalog s2 s3 r item :
  Reached w catalog s2 s3 →
  project catalog !! r = Some item →
  deref s2 r = set_duration (settledDuration w r) item
  ∧ deref s3 r = set_duration (settledDuration w r) item.
Proof.
  intros Hreached Hitem.
  assert (objects s3 !! r = Some (set_duration (settledDuration w r) item)) as Hr.
  { rewrite (reached_objects _ _ _ _ Hreached), enriched_lookup, Hitem.
    rewrite bool_decide_eq_true_2; [done|].
    apply elem_of_seq. apply lookup_lt_Some in Hitem. lia. }
  unfold deref. rewrite (reached_objects_before _ _ _ _ Hreached).
  split; by apply list_lookup_total_correct.
Qed.

(** The manifest a run writes lists the store as the enricher left it. *)
Lemma run_manifest w m :
  manifestOf (events (snd (run w))) = Some m →
  ∃ catalog,
    ofetchCatalog w = Fulfilled catalog
    ∧ Manifest.bgms m
      = enriched w (seq 0 (length (project catalog))) (project catalog).
Proof.
  rewrite manifestOf_writes.
  destruct (run_case w) as [e Hcat Hres Hev|catalog s2 s3 e Hreached Hread Hrun
                           |catalog s2 s3 Hreached Hread Hrun].
  - by rewrite Hev.
  - rewrite Hrun. simpl. by rewrite (reached_writes _ _ _ _ Hreached).
  - intros Hm. exists catalog. split; [apply Hreached|].
    assert (m.(Manifest.bgms) = map (deref s3) (seq 0 (length (project catalog)))) as ->.
    { revert Hm. rewrite Hrun, finish_spec.
      pose proof (reached_writes _ _ _ _ Hreached) as Hw.
      destruct (errorLogs s3) as [|r rs];
        [|destruct (writeErrorLog w) as [[]|e]]; simpl;
        rewrite ?List.filter_app, Hw; simpl; unfold manifestOf; simpl;
        by intros [= <-]. }
    unfold deref. rewrite <- (reached_objects _ _ _ _ Hreached).
    replace (length (project catalog)) with (length (objects s3))
      by (by rewrite (reached_objects _ _ _ _ Hreached), length_enriched).
    apply map_lookup_total_seq.
Qed.

(** A fulfilled run has written a manifest. *)
Lemma run_fulfilled_manifest w :
  fst (run w) = Ok tt → ∃ m, manifestOf (events (snd (run w))) = Some m.
Proof.
  rewrite manifestOf_writes.
  destruct (run_case w) as [e Hcat Hres Hev|catalog s2 s3 e Hreached Hread Hrun
                           |catalog s2 s3 Hreached Hread Hrun].
  - by rewrite Hres.
  - by rewrite Hrun.
  - rewrite Hrun, finish_spec.
    pose proof (reached_writes _ _ _ _ Hreached) as Hw.
    destruct (errorLogs s3) as [|r rs];
      [|destruct (writeErrorLog w) as [[]|e]]; simpl;
      rewrite ?List.filter_app, Hw; simpl; unfold manifestOf; simpl;
      intros Hok; first [discriminate Hok | by eexists].
Qed.
Lemma hasYoutube_spec entry : hasYoutube entry = true ↔ youtube entry ≠ EmptyString.
Proof.
  unfold hasYoutube. rewrite negb_true_iff.
  destruct (String.eqb_spec (youtube entry) EmptyString); split; congruence.
Qed.

Lemma project_data catalog : map data (project catalog) = List.filter hasYoutube catalog.
Proof. unfold project. rewrite map_map. apply map_id. Qed.

Lemma run_errorLogs_quiet w :
  (∀ r, markSettled w r = Fulfilled tt) →
  (∀ r, bgmSettled w r = Fulfilled tt) →
  (∀ r, ∃ d, ffprobe w r = ProbeOk d) →
  errorLogs (snd (run w)) = [].
Proof.
  intros Hm Hb Hp.
  destruct (run_case w) as [e Hcat Hres Hev|catalog s2 s3 e Hreached Hread Hrun
                           |catalog s2 s3 Hreached Hread Hrun].
  - by rewrite (run_without_catalog w e Hcat).
  - rewrite Hrun. by apply (reached_quiet _ _ _ _ Hreached).
  - pose proof (reached_quiet _ _ _ _ Hreached Hm Hb Hp) as Hlogs.
    rewrite Hrun, finish_spec, Hlogs. done.
Qed.

(** C7: when the mark file of some work item cannot be read, the run
    reaches the mark encoder and is rejected there with a read error; no
    record is appended for it ([errorLogs] is as the enricher left it),
    and neither the error log nor the manifest is written. *)
Theorem unreadable_mark_is_fatal w catalog item e :
  ofetchCatalog w = Fulfilled catalog →
  item ∈ project catalog →
  readFileSync w (path_join (markDir w) (getMarkFilename item)) = Rejected e →
  let outputData := seq 0 (length (project catalog)) in
  ∃ s0 s1 s2 s3 e',
    loadCatalog w init = (Ok outputData, s0)
    ∧ downloadStage w outputData s0 = (Ok tt, s1)
    ∧ enrichStage w outputData s1 = (Ok tt, s2)
    ∧ run w = (Throw e', s3)
    ∧ (∃ item', item' ∈ project catalog
         ∧ readFileSync w (path_join (markDir w) (getMarkFilename item')) = Rejected e')
    ∧ errorLogs s3 = errorLogs s2
    ∧ List.filter isWrite (events s3) = [].
Proof.
  intros Hcatalog Hin Hread outputData.
  apply list_elem_of_lookup in Hin as [r Hr].
  assert (r ∈ outputData) as Hrefs
    by (apply elem_of_seq; apply lookup_lt_Some in Hr; lia).
  destruct (run_case w) as [e0 Hcat Hres Hev|catalog' s2 s3 e' Hreached Hfirst Hrun
                           |catalog' s2 s3 Hreached Hfirst Hrun].
  - congruence.
  - assert (catalog' = catalog) as ->
      by (pose proof (reached_catalog _ _ _ _ Hreached); congruence).
    destruct (reached_stages _ _ _ _ Hreached) as (s0 & s1 & Hload & H1 & H2).
    exists s0, s1, s2, s3, e'. repeat (split; [done|]).
    split; [|split; [apply Hreached|apply Hreached]].
    apply firstRejection_inv in Hfirst as (r' & Hr' & Hrej).
    apply elem_of_seq in Hr'.
    destruct (lookup_lt_is_Some_2 (project catalog) r') as [item' Hitem']; [lia|].
    exists item'. split; [by eapply list_elem_of_lookup_2|].
    destruct (deref_reached _ _ _ _ _ _ Hreached Hitem') as [Hd _].
    unfold readRejection in Hrej. rewrite Hd in Hrej.
    change (getMarkFilename (set_duration (settledDuration w r') item'))
      with (getMarkFilename item') in Hrej.
    revert Hrej.
    destruct (readFileSync w (path_join (markDir w) (getMarkFilename item')))
      as [buf|reason]; [done|].
    by intros [= ->].
  - assert (catalog' = catalog) as ->
      by (pose proof (reached_catalog _ _ _ _ Hreached); congruence).
    exfalso.
    destruct (firstRejection_Some (readRejection w s2) outputData r e Hrefs) as [e' He'];
      [|fold outputData in Hfirst; congruence].
    destruct (deref_reached _ _ _ _ _ _ Hreached Hr) as [Hd _].
    unfold readRejection. rewrite Hd.
    change (getMarkFilename (set_duration (settledDuration w r) item))
      with (getMarkFilename item).
    by rewrite Hread.
Qed.

(** C8: the projection yields exactly one work item per catalog entry
    with a non-empty source reference, in catalog order, and none for the
    others; dropping an entry records no error (with every download and
    probe succeeding, [errorLogs] stays empty); for a catalog of three
    entries of which one lacks a source reference, two work items are
    produced and the [bgms] of the manifest the run writes has length 2. *)
Theorem projection_drops_unsourced :
  (∀ catalog,
     map data (project catalog) = List.filter hasYoutube catalog
     ∧ ∀ entry, entry ∈ map data (project catalog)
                ↔ entry ∈ catalog ∧ youtube entry ≠ EmptyString)
  ∧ (∀ w,
       (∀ r, markSettled w r = Fulfilled tt) →
       (∀ r, bgmSettled w r = Fulfilled tt) →
       (∀ r, ∃ d, ffprobe w r = ProbeOk d) →
       errorLogs (snd (run w)) = [])
  ∧ (∀ w catalog,
       ofetchCatalog w = Fulfilled catalog →
       length catalog = 3 →
       length (List.filter (λ entry, negb (hasYoutube entry)) catalog) = 1 →
       length (project catalog) = 2
       ∧ (fst (run w) = Ok tt → ∃ m, manifestOf (events (snd (run w))) = Some m)
       ∧ ∀ m, manifestOf (events (snd (run w))) = Some m →
              length (Manifest.bgms m) = 2).
Proof.
  split; [|split].
  - intros catalog. split; [apply project_data|].
    intros entry. rewrite project_data, list_elem_of_In, List.filter_In.
    by rewrite hasYoutube_spec, <- list_elem_of_In.
  - apply run_errorLogs_quiet.
  - intros w catalog Hcatalog Hlen Hdrop.
    assert (length (project catalog) = 2) as Hitems.
    { unfold project. rewrite length_map.
      pose proof (List.filter_length hasYoutube catalog). lia. }
    split; [done|]. split; [apply run_fulfilled_manifest|].
    intros m Hm. apply run_manifest in Hm as (catalog' & Hcatalog' & ->).
    assert (catalog' = catalog) as -> by congruence.
    by rewrite length_enriched.
Qed.

(** C9: the [bgms] of the manifest a run writes is the fetched catalog
    restricted to the entries with a non-empty source reference, in their
    original order, each entry once; and a fulfilled run has written the
    manifest. *)
Theorem manifest_keeps_catalog_order w :
  (fst (run w) = Ok tt → ∃ m, manifestOf (events (snd (run w))) = Some m)
  ∧ ∀ m, manifestOf (events (snd (run w))) = Some m →
         ∃ catalog,
           ofetchCatalog w = Fulfilled catalog
           ∧ map data (Manifest.bgms m) = List.filter hasYoutube catalog.
Proof.
  split; [apply run_fulfilled_manifest|].
  intros m Hm. apply run_manifest in Hm as (catalog & Hcatalog & ->).
  exists catalog. split; [done|].
  by rewrite enriched_data, project_data.
Qed.
End FinishClaims.

Lemma error_log_before_manifest_witness :
  let w := Build.Samples.logDown in
  ∃ log data,
    List.filter Build.isWrite (Build.events (snd (Build.run w))) = log ++ data
    ∧ (log = [] ∨ ∃ p c, log = [Build.WriteErrorLog p c])
    ∧ (data = []
       ∨ ∃ p m before, data = [Build.WriteManifest p m]
                       ∧ Build.events (snd (Build.run w)) = before ++ [Build.WriteManifest p m])
    ∧ (fst (Build.run w) = Ok tt → data ≠ [])
    ∧ (∀ e, Build.writeErrorLog w = Rejected e → log ≠ [] →
         fst (Build.run w) = Throw e ∧ data = []).
Proof. exact (error_log_before_manifest Build.Samples.logDown). Defined.

Lemma unreadable_mark_is_fatal_witness :
  let w := Build.Samples.unreadable in
  let catalog := Build.Samples.catalog3 in
  let outputData := seq 0 (length (Build.project catalog)) in
  ∃ s0 s1 s2 s3 e',
    Build.loadCatalog w Build.init = (Ok outputData, s0)
    ∧ Build.downloadStage w outputData s0 = (Ok tt, s1)
    ∧ Build.enrichStage w outputData s1 = (Ok tt, s2)
    ∧ Build.run w = (Throw e', s3)
    ∧ (∃ item', item' ∈ Build.project catalog
         ∧ Build.readFileSync w
             (Build.path_join (Build.markDir w) (Build.getMarkFilename item'))
           = Rejected e')
    ∧ Build.errorLogs s3 = Build.errorLogs s2
    ∧ List.filter Build.isWrite (Build.events s3) = [].
Proof.
  apply (unreadable_mark_is_fatal Build.Samples.unreadable Build.Samples.catalog3
           (Build.toOutputDataItem (Build.Samples.entry "GoPicnic" "kerning" "yt-picnic"))
           "ENOENT: no such file or directory").
  - reflexivity.
  - apply (list_elem_of_lookup_2 _ 1). reflexivity.
  - reflexivity.
Defined.

Lemma projection_drops_unsourced_witness :
  let w := Build.Samples.calm in
  let catalog := Build.Samples.catalog3 in
  map Build.data (Build.project catalog) = List.filter Build.hasYoutube catalog
  ∧ Build.errorLogs (snd (Build.run w)) = []
  ∧ length (Build.project catalog) = 2
  ∧ (fst (Build.run w) = Ok tt →
     ∃ m, Build.manifestOf (Build.events (snd (Build.run w))) = Some m)
  ∧ ∀ m, Build.manifestOf (Build.events (snd (Build.run w))) = Some m →
         length (Build.Manifest.bgms m) = 2.
Proof.
  destruct projection_drops_unsourced as (Hproject & Hquiet & Hthree).
  split; [apply Hproject|]. split.
  - apply (Hquiet Build.Samples.calm); intros r; [reflexivity|reflexivity|].
    by eexists.
  - apply (Hthree Build.Samples.calm Build.Samples.catalog3); reflexivity.
Defined.

Lemma manifest_keeps_catalog_order_witness :
  let w := Build.Samples.calm in
  (fst (Build.run w) = Ok tt →
   ∃ m, Build.manifestOf (Build.events (snd (Build.run w))) = Some m)
  ∧ ∀ m, Build.manifestOf (Build.events (snd (Build.run w))) = Some m →
         ∃ catalog,
           Build.ofetchCatalog w = Fulfilled catalog
           ∧ map Build.data (Build.Manifest.bgms m)
             = List.filter Build.hasYoutube catalog.
Proof. exact (manifest_keeps_catalog_order Build.Samples.calm). Defined.

(** The sample run with nothing on disk and nothing failing: two of the
    three entries reach the manifest, in catalog order, and the run is
    fulfilled. *)
Example calm_run :
  fst (Build.run Build.Samples.calm) = Ok tt
  ∧ (map (λ item, Build.filename (Build.data item)) ∘ Build.Manifest.bgms)
      <$> Build.manifestOf (Build.events (snd (Build.run Build.Samples.calm)))
    = Some ["FloralLife"; "GoPicnic"].
Proof. by vm_compute. Qed.

(** The sample run with an unreadable mark: rejected, nothing written. *)
Example unreadable_run :
  fst (Build.run Build.Samples.unreadable) = Throw "ENOENT: no such file or directory"
  ∧ List.filter Build.isWrite (Build.events (snd (Build.run Build.Samples.unreadable))) = []
  ∧ map Build.type (Build.errorLogs (snd (Build.run Build.Samples.unreadable)))
    = [Build.Mark].
Proof. by vm_compute. Qed.

(** ** The publish script *)

Section PublishFacts.
Import Js Publish.
Context (w : World).
Hypothesis git_succeeds : ∀ k c, gitResult w k c = Fulfilled tt.

Lemma git_ok c s :
  git w c s = (Ok tt, {| calls := calls s ++ [c]; part := part s |}).
Proof. unfold git, bind, get, modify, await. simpl. by rewrite git_succeeds. Qed.

Lemma commitBatch_ok files s :
  commitBatch w files s
  = (Ok tt, {| calls := calls s ++ batchCalls w (part s) files; part := part s + 1 |}).
Proof.
  unfold commitBatch.
  rewrite (bind_Ok _ _ _ _ _ (git_ok _ _)). unfold bind at 1, get at 1.
  rewrite (bind_Ok _ _ _ _ _ (git_ok _ _)). unfold bind at 1, setPart, modify.
  rewrite git_ok. simpl. by rewrite <- !app_assoc.
Qed.

Lemma chunkArray_loop_S {T} fuel (xs : list T) n i result :
  chunkArray_loop (S fuel) xs n i result
  = if (i <? length xs)%nat
    then chunkArray_loop fuel xs n (i + n) (result ++ [slice xs i (i + n)])
    else Some result.
Proof. reflexivity. Qed.

Lemma chunkArray_250 {T} (xs : list T) :
  length xs = 250 →
  chunkArray xs 100
  = Some [take 100 xs; take 100 (drop 100 xs); take 100 (drop 200 xs)].
Proof.
  intros Hlen. unfold chunkArray. rewrite Hlen.
  rewrite chunkArray_loop_S, Hlen, (slice_take_drop xs 0 100).
  change (0 <? 250)%nat with true. cbv iota.
  rewrite chunkArray_loop_S, Hlen, (slice_take_drop xs (0 + 100) 100).
  change (0 + 100 <? 250)%nat with true. cbv iota.
  rewrite chunkArray_loop_S, Hlen, (slice_take_drop xs (0 + 100 + 100) 100).
  change (0 + 100 + 100 <? 250)%nat with true. cbv iota.
  rewrite chunkArray_loop_S, Hlen.
  change (0 + 100 + 100 + 100 <? 250)%nat with false. cbv iota.
  replace (0 + 100 + 100) with 200 by lia. replace (0 + 100) with 100 by lia.
  done.
Qed.
End PublishFacts.

Section PublishClaims.
Import Js Publish.

(** C4: with git answering every call, a changed-file set of 10
    non-audio (json, png) files and 250 audio (mp3) files is published as
    one non-audio batch followed by three audio batches of 100, 100 and 50
    files, each staged, committed and pushed before the next, and numbered
    1, 2, 3, 4 in the commit messages. *)
Theorem publish_batches w :
  (∀ k c, gitResult w k c = Fulfilled tt) →
  let files := statusFiles w in
  let nonAudio :=
    map path (List.filter (hasExt ".json") files ++ List.filter (hasExt ".png") files) in
  let audio := map path (List.filter (hasExt ".mp3") files) in
  length nonAudio = 10 →
  length audio = 250 →
  ∃ s a1 a2 a3,
    run w init = (Ok tt, s)
    ∧ audio = a1 ++ a2 ++ a3
    ∧ length a1 = 100 ∧ length a2 = 100 ∧ length a3 = 50
    ∧ calls s
      = syncCalls w
        ++ batchCalls w 1 nonAudio
        ++ batchCalls w 2 a1 ++ batchCalls w 3 a2 ++ batchCalls w 4 a3.
Proof.
  intros Hgit files nonAudio audio Hnon Haudio.
  set (mp3Files := List.filter (hasExt ".mp3") files).
  assert (length mp3Files = 250) as Hmp3
    by (unfold audio in Haudio; by rewrite length_map in Haudio).
  exists {| calls := syncCalls w
                     ++ batchCalls w 1 nonAudio
                     ++ batchCalls w 2 (map path (take 100 mp3Files))
                     ++ batchCalls w 3 (map path (take 100 (drop 100 mp3Files)))
                     ++ batchCalls w 4 (map path (take 100 (drop 200 mp3Files)));
             part := 5 |},
    (map path (take 100 mp3Files)),
    (map path (take 100 (drop 100 mp3Files))),
    (map path (take 100 (drop 200 mp3Files))).
  split; [|split; [|split; [|split; [|split]]]].
  - unfold run. fold files. fold mp3Files.
    rewrite (bind_Ok _ _ _ _ _ (git_ok w Hgit _ _)).
    assert (∀ k : unit → M State unit,
              bind (if isRepoRoot w
                    then bind (git w (Fetch origin branch))
                           (λ _, git w (Reset ["--hard"; origin +:+ "/" +:+ branch]))
                    else bind (git w Init)
                           (λ _, bind (git w (AddRemote "origin" origin))
                                   (λ _, git w (Checkout ["--orphan"; branch]))))
                (λ u, bind (git w Status) k)
                {| calls := calls init ++ [CheckIsRepo]; part := part init |}
              = k tt {| calls := syncCalls w; part := 0 |}) as Hsync.
    { intros k. unfold syncCalls. destruct (isRepoRoot w).
      - rewrite bind_assoc.
        rewrite !(bind_Ok _ _ _ _ _ (git_ok w Hgit _ _)). reflexivity.
      - repeat (rewrite ?bind_assoc; rewrite (bind_Ok _ _ _ _ _ (git_ok w Hgit _ _))).
        reflexivity. }
    rewrite Hsync. clear Hsync.
    replace (length mp3Files =? 0)%nat with false by (by rewrite Hmp3).
    rewrite andb_false_r.
    unfold bind at 1, setPart at 1, modify at 1.
    replace ((0 <? length (List.filter (hasExt ".json") files))%nat
             || (0 <? length (List.filter (hasExt ".png") files))%nat) with true.
    2:{ unfold nonAudio in Hnon. rewrite length_map, length_app in Hnon.
        fold files in Hnon.
        destruct (length (List.filter (hasExt ".json") files));
          destruct (length (List.filter (hasExt ".png") files)); simpl in *; done. }
    rewrite (bind_Ok _ _ _ _ _ (commitBatch_ok w Hgit _ _)).
    replace (0 <? length mp3Files)%nat with true by (by rewrite Hmp3).
    rewrite (chunkArray_250 mp3Files Hmp3).
    cbn [forEach].
    rewrite !(bind_Ok _ _ _ _ _ (commitBatch_ok w Hgit _ _)).
    unfold ret. cbn [calls part Nat.add]. by rewrite <- !app_assoc.
  - unfold audio. fold files. fold mp3Files.
    rewrite <- !map_app. f_equal.
    rewrite <- (take_drop 100 mp3Files) at 1. f_equal.
    rewrite <- (take_drop 100 (drop 100 mp3Files)) at 1. f_equal.
    rewrite drop_drop. rewrite take_ge; [done|].
    rewrite length_drop. lia.
  - rewrite length_map, length_take. lia.
  - rewrite length_map, length_take, length_drop. lia.
  - rewrite length_map, length_take, length_drop. lia.
  - done.
Qed.
End PublishClaims.

Lemma publish_batches_witness :
  let w := Publish.Samples.firstDeploy in
  let files := Publish.statusFiles w in
  let nonAudio :=
    map Publish.path
      (List.filter (Publish.hasExt ".json") files
       ++ List.filter (Publish.hasExt ".png") files) in
  let audio := map Publish.path (List.filter (Publish.hasExt ".mp3") files) in
  length nonAudio = 10 ∧ length audio = 250
  ∧ ∃ s a1 a2 a3,
      Publish.run w Publish.init = (Ok tt, s)
      ∧ audio = a1 ++ a2 ++ a3
      ∧ length a1 = 100 ∧ length a2 = 100 ∧ length a3 = 50
      ∧ Publish.calls s
        = Publish.syncCalls w
          ++ Publish.batchCalls w 1 nonAudio
          ++ Publish.batchCalls w 2 a1 ++ Publish.batchCalls w 3 a2
          ++ Publish.batchCalls w 4 a3.
Proof.
  split; [by vm_compute|]. split; [by vm_compute|].
  apply (publish_batches Publish.Samples.firstDeploy).
  - intros k c. reflexivity.
  - by vm_compute.
  - by vm_compute.
Defined.

(** The commits of the sample deployment: their messages and sizes. *)
Example firstDeploy_commits :
  omap (λ c, match c with
             | Publish.Commit message files => Some (message, length files)
             | _ => None
             end)
    (Publish.calls (snd (Publish.run Publish.Samples.firstDeploy Publish.init)))
  = [("2026-01-31 - Deploy resources - Part 1", 10);
     ("2026-01-31 - Deploy resources - Part 2", 100);
     ("2026-01-31 - Deploy resources - Part 3", 100);
     ("2026-01-31 - Deploy resources - Part 4", 50)].
Proof. by vm_compute. Qed.

(** With nothing changed, nothing is committed or pushed. *)
Example nothing_to_commit :
  Publish.run
    {| Publish.isRepoRoot := true; Publish.statusFiles := [];
       Publish.dateText := "2026-01-31";
       Publish.gitResult := λ _ _, Fulfilled tt |} Publish.init
  = (Ok tt,
     {| Publish.calls :=
          [Publish.CheckIsRepo;
           Publish.Fetch Publish.origin Publish.branch;
           Publish.Reset ["--hard"; "https://github.com/maple-pod/resources.git/gh-pages"];
           Publish.Status];
        Publish.part := 0 |}).
Proof. by vm_compute. Qed.

(** * Further properties of the two scripts *)

(** ** chunkArray: closed form and edge cases *)

Section ChunkArrayMore.
Import Js.
Context {T : Type}.
Implicit Types (xs : list T).

Lemma chunkArray_loop_closed xs n :
  0 < n →
  ∀ fuel j result,
    length xs - j * n < fuel →
    chunkArray_loop fuel xs n (j * n) result
    = Some (result
            ++ map (λ k, take n (drop (k * n) xs))
                 (seq j ((length xs + n - 1) / n - j))).
Proof.
  intros Hn fuel. induction fuel as [|fuel IH]; intros j result Hfuel; [lia|].
  simpl. destruct (Nat.ltb_spec (j * n) (length xs)) as [Hj|Hj].
  - assert (S j ≤ (length xs + n - 1) / n) as Hk
      by (apply Nat.div_le_lower_bound; lia).
    replace (j * n + n) with (S j * n) by lia.
    rewrite IH by lia.
    replace ((length xs + n - 1) / n - j) with (S ((length xs + n - 1) / n - S j)) by lia.
    simpl seq. simpl map. rewrite <- app_assoc. simpl.
    do 3 f_equal. unfold slice. f_equal. lia.
  - assert ((length xs + n - 1) / n ≤ j) as Hk.
    { apply Nat.lt_succ_r, Nat.Div0.div_lt_upper_bound; lia. }
    replace ((length xs + n - 1) / n - j) with 0 by lia.
    simpl. by rewrite app_nil_r.
Qed.

(** X1: for a positive size [n], [chunkArray xs n] returns the chunks
    [xs.slice(k*n, k*n + n)] for k = 0, 1, ..., in that order, as many as
    the length of [xs] divided by [n], rounded up; no chunk is longer than
    [n]. *)
Theorem chunkArray_closed_form xs n :
  0 < n →
  ∃ chunks,
    chunkArray xs n = Some chunks
    ∧ chunks = map (λ k, take n (drop (k * n) xs)) (seq 0 ((length xs + n - 1) / n))
    ∧ length chunks = (length xs + n - 1) / n
    ∧ Forall (λ c, length c ≤ n) chunks.
Proof.
  intros Hn. eexists. split; [|split; [reflexivity|split]].
  - unfold chunkArray.
    change 0 with (0 * n) at 1.
    rewrite (chunkArray_loop_closed xs n Hn (S (length xs)) 0 []) by lia.
    by rewrite Nat.sub_0_r.
  - by rewrite length_map, length_seq.
  - apply Forall_forall. intros c Hc.
    apply list_elem_of_In, in_map_iff in Hc as (k & <- & _).
    rewrite length_take. lia.
Qed.

(** X2: on the empty array [chunkArray] returns no chunk, whatever the
    size, zero included; on a non-empty array with size 0 the loop never
    ends: the index stays where it is, and no number of turns returns. *)
Theorem chunkArray_edge_cases :
  (∀ n, chunkArray (@nil T) n = Some [])
  ∧ (∀ xs, xs ≠ [] →
       ∀ fuel i result,
         i < length xs → chunkArray_loop fuel xs 0 i result = None).
Proof.
  split; [done|].
  intros xs Hxs fuel. induction fuel as [|fuel IH]; intros i result Hi; [done|].
  simpl. destruct (Nat.ltb_spec i (length xs)) as [_|?]; [|lia].
  rewrite Nat.add_0_r. by apply IH.
Qed.
End ChunkArrayMore.

Lemma chunkArray_closed_form_witness :
  0 < 3 ∧
  ∃ chunks,
    Js.chunkArray [1; 2; 3; 4; 5; 6; 7] 3 = Some chunks
    ∧ chunks = map (λ k, take 3 (drop (k * 3) [1; 2; 3; 4; 5; 6; 7]))
                 (seq 0 ((length [1; 2; 3; 4; 5; 6; 7] + 3 - 1) / 3))
    ∧ length chunks = (length [1; 2; 3; 4; 5; 6; 7] + 3 - 1) / 3
    ∧ Forall (λ c, length c ≤ 3) chunks.
Proof. split; [lia | apply (chunkArray_closed_form [1; 2; 3; 4; 5; 6; 7] 3); lia]. Defined.

Lemma chunkArray_edge_cases_witness :
  Js.chunkArray (@nil nat) 0 = Some []
  ∧ [7; 8] ≠ [] ∧ 0 < length [7; 8]
  ∧ Js.chunkArray_loop 1000 [7; 8] 0 0 [] = None.
Proof.
  destruct (@chunkArray_edge_cases nat) as [Hempty Hzero].
  split; [apply Hempty|]. split; [done|]. split; [simpl; lia|].
  apply Hzero; [done|simpl; lia].
Defined.

(** ** The download stage: failures and the index *)

Section DownloadMore.
Import Build.
Context (w : World).

Lemma index_added {A} (ok : A → Prop) (name : A → string) (X : gset string) x r l :
  ok r →
  (x ∈ {[name r]} ∪ X ∨ (∃ r', r' ∈ l ∧ ok r' ∧ x = name r'))
  ↔ (x ∈ X ∨ ∃ r', r' ∈ r :: l ∧ ok r' ∧ x = name r').
Proof.
  intros Hr. split.
  - intros [Hx|(r' & Hin & Hok & ->)].
    + apply elem_of_union in Hx as [Hx|Hx]; [|by left].
      apply elem_of_singleton in Hx as ->. right. exists r.
      split; [apply elem_of_cons; by left|done].
    + right. exists r'. split; [apply elem_of_cons; by right|done].
  - intros [Hx|(r' & Hin & Hok & ->)].
    + left. by apply elem_of_union_r.
    + apply elem_of_cons in Hin as [->|Hin].
      * left. apply elem_of_union_l. by apply elem_of_singleton.
      * right. by exists r'.
Qed.

Lemma index_kept {A} (ok : A → Prop) (name : A → string) (X : gset string) x r l :
  ¬ ok r →
  (x ∈ X ∨ (∃ r', r' ∈ l ∧ ok r' ∧ x = name r'))
  ↔ (x ∈ X ∨ ∃ r', r' ∈ r :: l ∧ ok r' ∧ x = name r').
Proof.
  intros Hr. split.
  - intros [Hx|(r' & Hin & Hok & ->)]; [by left|].
    right. exists r'. split; [apply elem_of_cons; by right|done].
  - intros [Hx|(r' & Hin & Hok & ->)]; [by left|].
    apply elem_of_cons in Hin as [->|Hin]; [done|].
    right. by exists r'.
Qed.

Lemma forEach_download_index l s :
  ∃ s', forEach l (downloadItem w) s = (Ok tt, s')
    ∧ (∀ x, x ∈ downloadedMarks s'
            ↔ x ∈ downloadedMarks s
              ∨ ∃ r, r ∈ l ∧ markSettled w r = Fulfilled tt
                     ∧ x = getMarkFilename (deref s r))
    ∧ (∀ x, x ∈ downloadedBgms s'
            ↔ x ∈ downloadedBgms s
              ∨ ∃ r, r ∈ l ∧ bgmSettled w r = Fulfilled tt
                     ∧ x = getBgmFilename (deref s r)).
Proof.
  revert s. induction l as [|r l IH]; intros s.
  - exists s. split; [done|].
    split; intros x; (split; [by left|]);
      (intros [?|(r & Hr & _)]; [done|by apply elem_of_nil in Hr]).
  - destruct (downloadItem_spec w r s) as (s1 & Hturn & [To _ Tdm Tdb _ _ _]).
    destruct (IH s1) as (s2 & Hrest & Hm & Hb).
    exists s2. split.
    { simpl. rewrite (bind_Ok _ _ _ _ _ Hturn). exact Hrest. }
    assert (∀ r', deref s1 r' = deref s r') as Hderef
      by (intros r'; by apply deref_objects).
    split; intros x.
    + rewrite Hm, Tdm.
      assert ((∃ r0, r0 ∈ l ∧ markSettled w r0 = Fulfilled tt
                     ∧ x = getMarkFilename (deref s1 r0))
              ↔ (∃ r0, r0 ∈ l ∧ markSettled w r0 = Fulfilled tt
                       ∧ x = getMarkFilename (deref s r0))) as ->.
      { split; intros (r0 & ? & ? & ->); exists r0; by rewrite ?Hderef. }
      destruct (markSettled w r) as [[]|e] eqn:Hr.
      * by apply (index_added (λ r, markSettled w r = Fulfilled tt)
                    (λ r, getMarkFilename (deref s r))).
      * apply (index_kept (λ r, markSettled w r = Fulfilled tt)
                 (λ r, getMarkFilename (deref s r))). by rewrite Hr.
    + rewrite Hb, Tdb.
      assert ((∃ r0, r0 ∈ l ∧ bgmSettled w r0 = Fulfilled tt
                     ∧ x = getBgmFilename (deref s1 r0))
              ↔ (∃ r0, r0 ∈ l ∧ bgmSettled w r0 = Fulfilled tt
                       ∧ x = getBgmFilename (deref s r0))) as ->.
      { split; intros (r0 & ? & ? & ->); exists r0; by rewrite ?Hderef. }
      destruct (bgmSettled w r) as [[]|e] eqn:Hr.
      * by apply (index_added (λ r, bgmSettled w r = Fulfilled tt)
                    (λ r, getBgmFilename (deref s r))).
      * apply (index_kept (λ r, bgmSettled w r = Fulfilled tt)
                 (λ r, getBgmFilename (deref s r))). by rewrite Hr.
Qed.

(** X3: the download stage never rejects, however many downloads fail,
    and leaves the work items as they were.  It appends to [errorLogs]
    exactly the records of the failed downloads, item by item in the order
    of the to-download list, the mark record of an item before its track
    record; with no failed download [errorLogs] is unchanged. *)
Theorem download_never_fatal outputData s :
  ∃ s', downloadStage w outputData s = (Ok tt, s')
    ∧ objects s' = objects s
    ∧ errorLogs s'
      = errorLogs s
        ++ flat_map (λ r, downloadErrors w r (deref s r)) (toDownloadList s outputData)
    ∧ ((∀ r, r ∈ toDownloadList s outputData →
          markSettled w r = Fulfilled tt ∧ bgmSettled w r = Fulfilled tt) →
       errorLogs s' = errorLogs s).
Proof.
  destruct (downloadStage_spec w outputData s) as (s' & Hrun & R).
  exists s'. split; [exact Hrun|]. split; [apply R|].
  split; [apply R|]. intros Hok.
  rewrite (run_errorLogs _ _ _ _ R), flat_map_nil; [by rewrite app_nil_r|].
  intros r Hr. destruct (Hok r Hr) as [Hm Hb].
  unfold downloadErrors. by rewrite Hm, Hb.
Qed.

(** X4: after the download stage a file name is in the Local Asset Index
    exactly when it was there before or is the file of a to-download item
    whose download of that kind succeeded: the index only grows, and a
    failed download never marks its file present. *)
Theorem download_index_exact outputData s :
  ∃ s', downloadStage w outputData s = (Ok tt, s')
    ∧ (∀ x, x ∈ downloadedMarks s'
            ↔ x ∈ downloadedMarks s
              ∨ ∃ r, r ∈ toDownloadList s outputData
                     ∧ markSettled w r = Fulfilled tt
                     ∧ x = getMarkFilename (deref s r))
    ∧ (∀ x, x ∈ downloadedBgms s'
            ↔ x ∈ downloadedBgms s
              ∨ ∃ r, r ∈ toDownloadList s outputData
                     ∧ bgmSettled w r = Fulfilled tt
                     ∧ x = getBgmFilename (deref s r)).
Proof. apply forEach_download_index. Qed.
End DownloadMore.

(** ** The enricher: probes and records *)

Section EnrichMore.
Import Js Build.
Context (w : World).

(** X5: the Duration Enricher never rejects.  It probes every work item
    exactly once, in catalog order, and makes no other call.  It appends
    exactly one record of type bgm, naming the item's file, for every item
    whose probe failed, and none for the others; the records of a batch of
    fifty come before those of the next batch and, within a batch, in the
    order in which the probes are done, whatever that order is. *)
Theorem enrich_probes_and_records outputData s :
  ∃ s' batches,
    enrichStage w outputData s = (Ok tt, s')
    ∧ events s' = events s ++ map (λ r, probeCall w (deref s r)) outputData
    ∧ chunkArray outputData 50 = Some batches
    ∧ errorLogs s'
      = errorLogs s
        ++ flat_map (λ r, probeErrors w r (deref s r))
             (concat (map (completionOrder w) batches))
    ∧ Forall2 Permutation (map (completionOrder w) batches) batches
    ∧ (∀ r, data (deref s' r) = data (deref s r)).
Proof.
  destruct (enrichStage_exact w outputData s) as (s' & Hrun & P).
  pose proof (λ r, pass_data w _ _ _ _ r P) as Hdata.
  destruct P as [_ _ _ _ Pe Pv]. unfold enrichOrder in Pe.
  destruct (chunkArray_total outputData 50) as (batches & Hchunk & _); [lia|].
  rewrite Hchunk in Pe.
  exists s', batches. repeat (split; [done|]). split; [|done].
  clear. induction batches as [|b bs IH]; simpl; [done|].
  constructor; [apply completionOrder_Permutation|exact IH].
Qed.

(** X18: the Duration Enricher always completes and changes nothing of
    an item but its duration, which it sets for every work item: to 0 when
    the probe failed, and otherwise to what the probe reported when that is
    truthy and to 0 when it is not (nothing reported, 0, NaN, the empty
    text).  So the duration is a number unless the probe reported a text,
    and a reported text that is not empty is stored as it is. *)
Theorem enrich_durations s :
  ∃ s', enrichStage w (seq 0 (length (objects s))) s = (Ok tt, s')
    ∧ length (objects s') = length (objects s)
    ∧ ∀ r item, objects s !! r = Some item →
        ∃ d, objects s' !! r = Some (set_duration d item)
          ∧ (∀ err, ffprobe w r = ProbeErr err → d = Num zero)
          ∧ (∀ v, ffprobe w r = ProbeOk v → d = if truthyValue v then v else Num zero)
          ∧ ((∀ text, ffprobe w r ≠ ProbeOk (Str text)) → isNumber d = true)
          ∧ (∀ text, text ≠ EmptyString → ffprobe w r = ProbeOk (Str text) →
               d = Str text).
Proof.
  destruct (enrichStage_spec w (seq 0 (length (objects s))) s) as (s' & Hrun & R).
  exists s'. split; [exact Hrun|].
  rewrite (enriched_objects _ _ _ _ R). split.
  - apply length_enriched.
  - intros r item Hitem. exists (settledDuration w r).
    rewrite enriched_lookup, Hitem, bool_decide_eq_true_2
      by (apply elem_of_seq; apply lookup_lt_Some in Hitem; lia).
    split; [done|]. unfold settledDuration.
    destruct (ffprobe w r) as [err|v].
    + split; [done|]. split; [done|]. split; done.
    + split; [done|]. split; [by intros v' [= ->]|]. split.
      * intros Hv. unfold or_zero.
        destruct v as [|n|text]; simpl; [done| |by destruct (Hv text)].
        by destruct (truthy n).
      * intros text Htext [= ->]. unfold or_zero. simpl.
        destruct (String.eqb text EmptyString) eqn:Heq; [|done].
        by apply String.eqb_eq in Heq.
Qed.

(** With two probes that both fail, the second done first, the record of
    the second item comes first. *)
Example slowFirstProbe_records :
  map message (errorLogs (snd (enrichStage Samples.slowFirstProbe [0; 1]
                                 (loaded Samples.slowFirstProbe Samples.catalog3))))
  = ["Failed to get duration for GoPicnic: ffprobe exited with code 1";
     "Failed to get duration for FloralLife: ffprobe exited with code 1"].
Proof. by vm_compute. Qed.
End EnrichMore.

(** ** The mark encoder: what it reads and what it stores *)

Section EncodeMore.
Import Build.
Context (w : World).

Lemma encodeItem_exact r s :
  encodeItem w r s = (settled (readRejection w s r), encodedState w s [r]).
Proof.
  unfold encodeItem, readRejection, encodedState, encodeOne, readCall, bind, get,
    emit, modify, await, ret, throw. simpl.
  by destruct (readFileSync w _).
Qed.

Lemma encodedState_step s r l :
  encodedState w (encodedState w s [r]) l = encodedState w s (r :: l).
Proof.
  unfold encodedState. simpl. by rewrite <- app_assoc.
Qed.

Lemma encodedState_app s l1 l2 :
  encodedState w (encodedState w s l1) l2 = encodedState w s (l1 ++ l2).
Proof.
  unfold encodedState. simpl. by rewrite foldl_app, map_app, app_assoc.
Qed.

Lemma allFrom_encode first l s :
  allFrom first l (encodeItem w) s
  = (settled (match first with
              | Some e => Some e
              | None => firstRejection (readRejection w s) l
              end),
     encodedState w s l).
Proof.
  revert first s. induction l as [|r l IH]; intros first s.
  - simpl. unfold encodedState. simpl. rewrite app_nil_r.
    destruct s; by destruct first.
  - simpl. unfold bind, settle. rewrite encodeItem_exact.
    unfold firstRejection. simpl.
    change (readRejection w (encodedState w s [r])) with (readRejection w s) in IH.
    destruct (readRejection w s r) as [e|] eqn:Hr; simpl.
    + destruct first as [e0|]; rewrite IH, encodedState_step; reflexivity.
    + rewrite IH, encodedState_step. reflexivity.
Qed.

Lemma upToFailure_encoded s l batches :
  upToFailure w (encodedState w s l) batches = upToFailure w s batches.
Proof.
  induction batches as [|b bs IH]; cbn [upToFailure]; [done|].
  change (readRejection w (encodedState w s l)) with (readRejection w s).
  by rewrite IH.
Qed.

Lemma batches_encode batches s :
  forEach batches (λ batch, promiseAll batch (encodeItem w)) s
  = (settled (firstRejection (readRejection w s) (concat batches)),
     encodedState w s (concat (upToFailure w s batches))).
Proof.
  revert s. induction batches as [|batch batches IH]; intros s.
  - simpl. unfold encodedState. simpl. rewrite app_nil_r. by destruct s.
  - simpl. unfold promiseAll at 1. unfold bind. rewrite allFrom_encode.
    rewrite firstRejection_app.
    destruct (firstRejection (readRejection w s) batch) as [e|]; simpl.
    + by rewrite app_nil_r.
    + rewrite IH.
      change (readRejection w (encodedState w s batch)) with (readRejection w s).
      by rewrite encodedState_app, upToFailure_encoded.
Qed.

Lemma upToFailure_all s batches :
  firstRejection (readRejection w s) (concat batches) = None →
  upToFailure w s batches = batches.
Proof.
  induction batches as [|b bs IH]; simpl; [done|].
  rewrite firstRejection_app.
  destruct (firstRejection (readRejection w s) b); [done|].
  intros H. by rewrite IH.
Qed.

(** X6: the mark encoder works batch by batch.  Every mark of a batch is
    read, in order, even after a read of that batch has failed; the stage is
    rejected, with the first failure of that batch, once the batch is over,
    and no later batch is started.  The stage touches nothing but [marks]
    and pushes no record. *)
Theorem encode_stops_after_failed_batch outputData s :
  ∃ batches,
    Js.chunkArray outputData 50 = Some batches
    ∧ concat batches = outputData
    ∧ let started := concat (upToFailure w s batches) in
      encodeStage w outputData s
      = (settled (firstRejection (readRejection w s) outputData),
         encodedState w s started)
      ∧ events (encodedState w s started)
        = events s ++ map (λ r, readCall w (deref s r)) started
      ∧ errorLogs (encodedState w s started) = errorLogs s
      ∧ objects (encodedState w s started) = objects s.
Proof.
  destruct (chunkArray_total outputData 50) as (batches & Hchunk & Hcat); [lia|].
  exists batches. split; [done|]. split; [done|].
  split; [|done].
  unfold encodeStage, inBatches. rewrite Hchunk, batches_encode. by rewrite Hcat.
Qed.
End EncodeMore.

(** ** The run, stage by stage *)

Section RunMore.
Import Build.
Context (w : World).

Lemma encodeStage_exact outputData s :
  ∃ batches,
    Js.chunkArray outputData 50 = Some batches
    ∧ concat batches = outputData
    ∧ encodeStage w outputData s
      = (settled (firstRejection (readRejection w s) outputData),
         encodedState w s (concat (upToFailure w s batches))).
Proof.
  destruct (chunkArray_total outputData 50) as (batches & Hchunk & Hcat); [lia|].
  exists batches. split; [done|]. split; [done|].
  unfold encodeStage, inBatches. rewrite Hchunk, batches_encode. by rewrite Hcat.
Qed.

Lemma encodeStage_readable outputData s :
  firstRejection (readRejection w s) outputData = None →
  encodeStage w outputData s = (Ok tt, encodedState w s outputData).
Proof.
  intros Hread.
  destruct (encodeStage_exact outputData s) as (batches & _ & Hcat & ->).
  rewrite Hread, upToFailure_all by (by rewrite Hcat). by rewrite Hcat.
Qed.

(** The state in which the run enters the mark encoder. *)
Lemma run_exact catalog :
  ofetchCatalog w = Fulfilled catalog →
  let outputData := seq 0 (length (project catalog)) in
  ∃ s2,
    objects s2 = enriched w outputData (project catalog)
    ∧ errorLogs s2 = runErrors w catalog
    ∧ List.filter isWrite (events s2) = []
    ∧ List.filter isFetch (events s2)
      = flat_map (fetchesFor w)
          (List.filter (λ item, negb (present (scanMarks w) (scanBgms w) item))
             (project catalog))
    ∧ run w = bind (encodeStage w outputData) (λ _, finish w outputData)
                (with_marks ∅ s2).
Proof.
  intros Hcat outputData.
  destruct (run_stages w catalog Hcat)
    as (s1 & s2 & s3 & Hload & H1 & R1 & H2 & R2 & R3 & Hrun).
  fold outputData in Hload, H1, R1, H2, R2, Hrun.
  destruct (enrichStage_exact w outputData s1) as (s2' & H2' & [_ _ _ _ Herr _]).
  assert (s2' = s2) as -> by congruence.
  destruct R1 as [Ro1 _ _ _ Re1 Rf1 Rw1 _ _], R2 as [Ro2 _ _ _ _ Rw2 Rf2].
  exists s2. split; [|split; [|split; [|split]]].
  - by rewrite Ro2, Ro1.
  - rewrite Herr, Re1. unfold runErrors. fold outputData. simpl. f_equal.
    apply flat_map_ext. intros r. by rewrite (deref_objects _ _ _ Ro1).
  - by rewrite Rw2, Rw1.
  - rewrite Rf2, Rf1. simpl.
    change (toDownloadList (loaded w catalog) outputData)
      with (toDownloadList (downloadStart catalog (scanMarks w) (scanBgms w)) outputData).
    rewrite <- (toDownloadList_items catalog (scanMarks w) (scanBgms w)).
    rewrite !flat_map_concat_map, map_map. reflexivity.
  - unfold run, main.
    rewrite (bind_Ok _ _ _ _ _ Hload), (bind_Ok _ _ _ _ _ H1), (bind_Ok _ _ _ _ _ H2).
    reflexivity.
Qed.

Lemma firstRejection_None {A} (rejection : A → option string) (xs : list A) :
  firstRejection rejection xs = None ↔ ∀ x, x ∈ xs → rejection x = None.
Proof.
  split.
  - intros Hnone x Hx. destruct (rejection x) as [e|] eqn:He; [|done].
    destruct (firstRejection_Some rejection xs x e Hx He) as [e' He']. congruence.
  - intros Hall. destruct (firstRejection rejection xs) as [e|] eqn:He; [|done].
    apply firstRejection_inv in He as (x & Hx & He). rewrite Hall in He; done.
Qed.

Lemma assign_proto text (m : gmap string string) : Js.assign "__proto__" text m = m.
Proof. reflexivity. Qed.

Lemma assign_other key text (m : gmap string string) :
  key ≠ "__proto__" → Js.assign key text m = <[key := text]> m.
Proof.
  intros Hkey. unfold Js.assign.
  destruct (String.eqb key "__proto__") eqn:Heq; [|done].
  by apply String.eqb_eq in Heq.
Qed.

Lemma encoded_marks s l (m : gmap string string) :
  (∀ r, r ∈ l → readRejection w s r = None) →
  (∀ r, r ∈ l → mark (data (deref s r)) ≠ "__proto__" →
     ∃ buf, readFileSync w (path_join (markDir w) (getMarkFilename (deref s r)))
            = Fulfilled buf
            ∧ foldl (encodeOne w s) m l !! mark (data (deref s r))
              = Some (deflateSync w buf))
  ∧ (∀ k, is_Some (foldl (encodeOne w s) m l !! k) →
          is_Some (m !! k)
          ∨ k ≠ "__proto__" ∧ ∃ r, r ∈ l ∧ mark (data (deref s r)) = k).
Proof.
  induction l as [|r l IH] using rev_ind; intros Hread.
  - split; [intros r Hr; by apply elem_of_nil in Hr|]. intros k Hk. by left.
  - destruct IH as [IH1 IH2].
    { intros r' Hr'. apply Hread, elem_of_app. by left. }
    assert (readRejection w s r = None) as Hr
      by (apply Hread, elem_of_app; right; by apply list_elem_of_singleton).
    unfold readRejection in Hr.
    destruct (readFileSync w (path_join (markDir w) (getMarkFilename (deref s r))))
      as [buf|e] eqn:Hbuf; [clear Hr|done].
    rewrite foldl_app. simpl. unfold encodeOne at 1 3. rewrite Hbuf.
    destruct (decide (mark (data (deref s r)) = "__proto__")) as [Hproto|Hkey].
    { rewrite Hproto, assign_proto. split.
      - intros r' Hr' Hne. apply elem_of_app in Hr' as [Hr'|Hr'].
        + by apply IH1.
        + apply list_elem_of_singleton in Hr' as ->. done.
      - intros k Hk. destruct (IH2 k Hk) as [?|(Hne & r' & Hr' & <-)]; [by left|].
        right. split; [done|]. exists r'. split; [|done]. apply elem_of_app. by left. }
    rewrite assign_other by done. split.
    + intros r' Hr' Hne.
      destruct (decide (mark (data (deref s r')) = mark (data (deref s r)))) as [Heq|Hne'].
      * exists buf. unfold getMarkFilename. rewrite Heq, lookup_insert_eq.
        split; [exact Hbuf|done].
      * apply elem_of_app in Hr' as [Hr'|Hr'];
          [|apply list_elem_of_singleton in Hr' as ->; done].
        destruct (IH1 r' Hr' Hne) as (buf' & Hbuf' & Hlook).
        exists buf'. split; [done|]. by rewrite lookup_insert_ne.
    + intros k Hk.
      destruct (decide (mark (data (deref s r)) = k)) as [<-|Hne].
      * right. split; [done|]. exists r. split; [|done]. apply elem_of_app. right.
        by apply list_elem_of_singleton.
      * rewrite lookup_insert_ne in Hk by done.
        destruct (IH2 k Hk) as [?|(Hk' & r' & Hr' & <-)]; [by left|].
        right. split; [done|]. exists r'. split; [|done]. apply elem_of_app. by left.
Qed.

Lemma filter_isWrite_reads s l :
  List.filter isWrite (map (λ r, readCall w (deref s r)) l) = [].
Proof. by induction l. Qed.

Lemma filter_isFetch_reads s l :
  List.filter isFetch (map (λ r, readCall w (deref s r)) l) = [].
Proof. by induction l. Qed.

Lemma readRejection_item catalog s r item :
  objects s = enriched w (seq 0 (length (project catalog))) (project catalog) →
  project catalog !! r = Some item →
  deref s r = set_duration (settledDuration w r) item.
Proof.
  intros Ho Hitem. unfold deref. apply list_lookup_total_correct.
  rewrite Ho, enriched_lookup, Hitem, bool_decide_eq_true_2; [done|].
  apply elem_of_seq. apply lookup_lt_Some in Hitem. lia.
Qed.

Lemma marksReadable_firstRejection catalog s :
  objects s = enriched w (seq 0 (length (project catalog))) (project catalog) →
  marksReadable w catalog →
  firstRejection (readRejection w s) (seq 0 (length (project catalog))) = None.
Proof.
  intros Ho Hread. apply firstRejection_None. intros r Hr.
  apply elem_of_seq in Hr.
  destruct (lookup_lt_is_Some_2 (project catalog) r) as [item Hitem]; [lia|].
  unfold readRejection. rewrite (readRejection_item catalog s r item Ho Hitem).
  change (getMarkFilename (set_duration (settledDuration w r) item))
    with (getMarkFilename item).
  destruct (Hread item) as [buf ->]; [by eapply list_elem_of_lookup_2|done].
Qed.

(** The run from the mark encoder on. *)
Lemma run_readable catalog :
  ofetchCatalog w = Fulfilled catalog →
  let outputData := seq 0 (length (project catalog)) in
  ∃ s2 started,
    objects s2 = enriched w outputData (project catalog)
    ∧ errorLogs s2 = runErrors w catalog
    ∧ List.filter isWrite (events s2) = []
    ∧ List.filter isFetch (events s2)
      = flat_map (fetchesFor w)
          (List.filter (λ item, negb (present (scanMarks w) (scanBgms w) item))
             (project catalog))
    ∧ run w
      = match firstRejection (readRejection w s2) outputData with
        | Some e => (Throw e, encodedState w (with_marks ∅ s2) started)
        | None => finish w outputData (encodedState w (with_marks ∅ s2) outputData)
        end.
Proof.
  intros Hcat outputData.
  destruct (run_exact catalog Hcat) as (s2 & Ho & He & Hw & Hf & Hrun).
  destruct (encodeStage_exact outputData (with_marks ∅ s2))
    as (batches & Hchunk & Hcat' & Henc).
  exists s2, (concat (upToFailure w (with_marks ∅ s2) batches)).
  repeat (split; [done|]).
  rewrite Hrun. fold outputData. unfold bind at 1. rewrite Henc.
  change (readRejection w (with_marks ∅ s2)) with (readRejection w s2).
  destruct (firstRejection (readRejection w s2) outputData) as [e|] eqn:Hfirst; simpl.
  - reflexivity.
  - rewrite upToFailure_all; [by rewrite Hcat'|].
    rewrite Hcat'. exact Hfirst.
Qed.

Lemma run_manifest_exact m :
  manifestOf (events (snd (run w))) = Some m →
  ∃ catalog s2,
    let outputData := seq 0 (length (project catalog)) in
    let s3 := encodedState w (with_marks ∅ s2) outputData in
    ofetchCatalog w = Fulfilled catalog
    ∧ objects s2 = enriched w outputData (project catalog)
    ∧ firstRejection (readRejection w s2) outputData = None
    ∧ m = {| Manifest.bgms := map (deref s3) outputData;
             Manifest.marks := marks s3;
             Manifest.builtAt := builtAtNow w |}
    ∧ ∃ before, events (snd (run w)) = before ++ [dataWrite w outputData s3].
Proof.
  rewrite manifestOf_writes.
  destruct (ofetchCatalog w) as [catalog|e] eqn:Hcat.
  - destruct (run_readable catalog Hcat) as (s2 & started & Ho & He & Hw & Hf & Hrun).
    rewrite Hrun.
    destruct (firstRejection (readRejection w s2) _) as [e|] eqn:Hfirst.
    + simpl. by rewrite List.filter_app, Hw, filter_isWrite_reads.
    + intros Hm. exists catalog, s2. simpl. repeat (split; [done|]).
      revert Hm. rewrite finish_spec.
      remember (encodedState w (with_marks ∅ s2) (seq 0 (length (project catalog))))
        as s3 eqn:Hs3.
      assert (List.filter isWrite (events s3) = []) as Hw3
        by (subst s3; simpl; by rewrite List.filter_app, Hw, filter_isWrite_reads).
      destruct (errorLogs s3) as [|r rs];
        [|destruct (writeErrorLog w) as [[]|e]]; simpl;
        rewrite ?List.filter_app, Hw3; simpl; unfold manifestOf; simpl;
        intros [= <-]; subst s3; (split; [reflexivity|]); by eexists.
  - rewrite (run_without_catalog w e Hcat). done.
Qed.

(** X7: in the manifest a run writes, [marks] has exactly one entry for
    each mark identifier used by an item of [bgms], whichever number of items
    share it, and no other entry; the entry holds the compressed bytes of that
    mark's file.  The identifier [__proto__] is the one exception: an
    assignment under that name creates no property, so [marks] never has an
    entry for it, also when an item of [bgms] uses it. *)
Theorem manifest_marks m :
  manifestOf (events (snd (run w))) = Some m →
  (∀ item, item ∈ Manifest.bgms m → mark (data item) ≠ "__proto__" →
     ∃ buf, readFileSync w (path_join (markDir w) (getMarkFilename item))
            = Fulfilled buf
            ∧ Manifest.marks m !! mark (data item) = Some (deflateSync w buf))
  ∧ (∀ k, is_Some (Manifest.marks m !! k) →
          k ≠ "__proto__" ∧ ∃ item, item ∈ Manifest.bgms m ∧ mark (data item) = k)
  ∧ Manifest.marks m !! "__proto__" = None.
Proof.
  intros Hm.
  destruct (run_manifest_exact m Hm) as (catalog & s2 & _ & Ho & Hfirst & -> & _).
  set (outputData := seq 0 (length (project catalog))) in *.
  destruct (encoded_marks (with_marks ∅ s2) outputData ∅) as [Hin Hdom].
  { by apply firstRejection_None. }
  assert (∀ k, is_Some (foldl (encodeOne w (with_marks ∅ s2)) ∅ outputData !! k) →
               k ≠ "__proto__"
               ∧ ∃ item, item ∈ map (deref (with_marks ∅ s2)) outputData
                         ∧ mark (data item) = k) as Hkeys.
  { intros k Hk. destruct (Hdom k Hk) as [Hempty|(Hne & r & Hr & <-)].
    - rewrite lookup_empty in Hempty. by destruct Hempty.
    - split; [done|]. exists (deref (with_marks ∅ s2) r). split; [|done].
      apply list_elem_of_In, in_map_iff. exists r.
      split; [done|by apply list_elem_of_In]. }
  simpl. split; [|split].
  - intros item Hitem.
    apply list_elem_of_In, in_map_iff in Hitem as (r & <- & Hr).
    apply list_elem_of_In in Hr. exact (Hin r Hr).
  - exact Hkeys.
  - apply eq_None_not_Some. intros Hk. by destruct (Hkeys _ Hk).
Qed.

(** A catalog whose first entry has the mark [__proto__]: the manifest
    lists the item, and [marks] holds the other mark only. *)
Example protoMark_run :
  fst (run Samples.protoMark) = Ok tt
  ∧ (map_to_list ∘ Manifest.marks <$> manifestOf (events (snd (run Samples.protoMark))))
    = Some [("kerning", Samples.png)]
  ∧ (map (mark ∘ data) ∘ Manifest.bgms
       <$> manifestOf (events (snd (run Samples.protoMark))))
    = Some ["__proto__"; "kerning"].
Proof. split; [by vm_compute|]. split; by vm_compute. Qed.

Lemma enriched_imap items :
  enriched w (seq 0 (length items)) items
  = imap (λ r item, set_duration (settledDuration w r) item) items.
Proof.
  apply list_eq. intros k.
  rewrite enriched_lookup, list_lookup_imap.
  destruct (decide (k < length items)) as [Hk|Hk].
  - rewrite bool_decide_eq_true_2 by (apply elem_of_seq; lia). done.
  - rewrite bool_decide_eq_false_2 by (rewrite elem_of_seq; lia).
    assert (∀ (g : OutputDataItem → OutputDataItem) (o : option OutputDataItem),
              o = None → o = g <$> o) as Hnone by (by intros g o ->).
    apply Hnone, lookup_ge_None_2. lia.
Qed.

(** X8: the manifest a run writes goes to [data.json] in the output
    directory, as the last call of the run, with [builtAt] the time read
    then.  Its [bgms] has one entry per catalog entry with a source
    reference, in catalog order: the title from the entry's metadata, the
    cover and src paths built from its mark and file name, the duration the
    enricher settled, and the entry itself as [data]. *)
Theorem manifest_entries m :
  manifestOf (events (snd (run w))) = Some m →
  ∃ catalog before,
    ofetchCatalog w = Fulfilled catalog
    ∧ Manifest.bgms m = imap (manifestEntry w) (List.filter hasYoutube catalog)
    ∧ Manifest.builtAt m = builtAtNow w
    ∧ events (snd (run w))
      = before ++ [WriteManifest (path_join (outputDir w) "data.json") m].
Proof.
  intros Hm.
  destruct (run_manifest_exact m Hm)
    as (catalog & s2 & Hcat & Ho & Hfirst & -> & before & Hev).
  exists catalog, before. split; [done|]. simpl. split; [|split; [done|exact Hev]].
  change (map (deref (encodedState w (with_marks ∅ s2) (seq 0 (length (project catalog))))))
    with (map (λ r, objects s2 !!! r)).
  replace (length (project catalog)) with (length (objects s2))
    by (by rewrite Ho, length_enriched).
  rewrite map_lookup_total_seq, Ho, enriched_imap.
  unfold project. rewrite imap_fmap. reflexivity.
Qed.

Lemma filter_none_sub {A} (f g : A → bool) (l : list A) :
  (∀ x, f x = true → g x = true) → List.filter g l = [] → List.filter f l = [].
Proof.
  intros Hfg. induction l as [|x l IH]; simpl; [done|].
  destruct (g x) eqn:Hg; [done|]. intros Hl.
  destruct (f x) eqn:Hf; [|by apply IH].
  apply Hfg in Hf. congruence.
Qed.

(** X9: whenever the catalog was fetched, the records held at the end of
    the run are those of the failed downloads, in to-download order, followed
    by those of the failed probes, batch after batch and within a batch in
    the order in which the probes were done; the encoder adds none.
    When every mark can be read, the run writes the error log exactly when
    there is a record, once, to [error-<time>.log] in the output directory,
    with all these records as its content. *)
Theorem error_log_content catalog :
  ofetchCatalog w = Fulfilled catalog →
  errorLogs (snd (run w)) = runErrors w catalog
  ∧ (marksReadable w catalog →
     List.filter isErrorLogWrite (events (snd (run w)))
     = match runErrors w catalog with
       | [] => []
       | _ :: _ =>
           [WriteErrorLog
              (path_join (outputDir w)
                 ("error-" +:+ pretty (errorLogNow w) +:+ ".log"))
              (runErrors w catalog)]
       end).
Proof.
  intros Hcat.
  destruct (run_readable catalog Hcat) as (s2 & started & Ho & He & Hw & Hf & Hrun).
  set (outputData := seq 0 (length (project catalog))) in *.
  remember (encodedState w (with_marks ∅ s2) outputData) as s3 eqn:Hs3.
  assert (errorLogs s3 = runErrors w catalog) as He3 by (by subst s3).
  assert (List.filter isErrorLogWrite (events s3) = []) as Hw3.
  { apply (filter_none_sub _ isWrite); [by intros [] | ].
    subst s3. simpl. by rewrite List.filter_app, Hw, filter_isWrite_reads. }
  split.
  - rewrite Hrun. destruct (firstRejection (readRejection w s2) outputData); [done|].
    rewrite finish_spec.
    destruct (errorLogs s3) as [|r rs] eqn:Hlogs;
      [|destruct (writeErrorLog w) as [[]|e]]; simpl; congruence.
  - intros Hread.
    pose proof (marksReadable_firstRejection catalog s2 Ho Hread) as Hnone.
    fold outputData in Hnone. rewrite Hrun, Hnone, finish_spec.
    rewrite <- He3. unfold logWrite.
    destruct (errorLogs s3) as [|r rs] eqn:Hlogs;
      [|destruct (writeErrorLog w) as [[]|e]]; simpl;
      rewrite ?List.filter_app, Hw3; simpl; by rewrite ?Hlogs.
Qed.

(** X10: in a whole run, downloads are requested by the download stage
    only: the requests of the run are one mark request and one track request
    for every item not fully present in the directories scanned at the start,
    in catalog order.  When every item is present the run requests nothing
    but the catalog. *)
Theorem run_requests catalog :
  ofetchCatalog w = Fulfilled catalog →
  List.filter isFetch (events (snd (run w)))
  = flat_map (fetchesFor w)
      (List.filter (λ item, negb (present (scanMarks w) (scanBgms w) item))
         (project catalog))
  ∧ ((∀ item, item ∈ project catalog →
        present (scanMarks w) (scanBgms w) item = true) →
     List.filter isFetch (events (snd (run w))) = []).
Proof.
  intros Hcat.
  destruct (run_readable catalog Hcat) as (s2 & started & Ho & He & Hw & Hf & Hrun).
  assert (List.filter isFetch (events (snd (run w)))
          = flat_map (fetchesFor w)
              (List.filter (λ item, negb (present (scanMarks w) (scanBgms w) item))
                 (project catalog))) as Hfetch.
  { rewrite Hrun, <- Hf.
    destruct (firstRejection (readRejection w s2) _).
    - simpl. by rewrite List.filter_app, filter_isFetch_reads, app_nil_r.
    - rewrite finish_spec.
      remember (encodedState w (with_marks ∅ s2) (seq 0 (length (project catalog))))
        as s3 eqn:Hs3.
      assert (List.filter isFetch (events s3) = List.filter isFetch (events s2)) as Hf3.
      { subst s3. simpl. by rewrite List.filter_app, filter_isFetch_reads, app_nil_r. }
      destruct (errorLogs s3) as [|r rs];
        [|destruct (writeErrorLog w) as [[]|e]]; simpl;
        rewrite ?List.filter_app, Hf3; simpl; by rewrite ?app_nil_r. }
  split; [exact Hfetch|].
  intros Hall. rewrite Hfetch, filter_none; [done|].
  intros item Hitem. apply list_elem_of_In in Hitem. by rewrite Hall.
Qed.

(** X11: when the catalog cannot be fetched the run is rejected with that
    failure before any download, probe, mark read or file write: the catalog
    request is the only such call, no work item exists and no record is
    held. *)
Theorem catalog_failure_is_fatal e :
  ofetchCatalog w = Rejected e →
  fst (run w) = Throw e
  ∧ events (snd (run w)) = [OfetchCatalog]
  ∧ objects (snd (run w)) = []
  ∧ errorLogs (snd (run w)) = [].
Proof. intros Hcat. by rewrite (run_without_catalog w e Hcat). Qed.
End RunMore.

(** ** The publish script: any changed-file set, any answers from git *)

Section PublishMore.
Import Js Publish.
Context (w : World).

Lemma allAnswered_snoc cs c :
  allAnswered w cs → gitResult w (length cs) c = Fulfilled tt →
  allAnswered w (cs ++ [c]).
Proof.
  intros Hcs Hc i c' Hi. apply lookup_app_Some in Hi as [Hi|[Hlen Hi]].
  - by apply Hcs.
  - apply list_lookup_singleton_Some in Hi as [Hi <-].
    replace i with (length cs) by lia. done.
Qed.

Lemma git_failStop c s :
  allAnswered w (calls s) → failStop w (git w c s).
Proof.
  intros Hs. unfold git, bind, get, modify, await, failStop. simpl.
  destruct (gitResult w (length (calls s)) c) as [[]|e] eqn:Hc; simpl.
  - by apply allAnswered_snoc.
  - by exists (calls s), c.
Qed.

Lemma bind_failStop {A B} (m : M State A) (k : A → M State B) s :
  failStop w (m s) →
  (∀ a s', allAnswered w (calls s') → failStop w (k a s')) →
  failStop w (bind m k s).
Proof.
  intros Hm Hk. unfold bind. destruct (m s) as [[a|e|] s'] eqn:Hms.
  - apply Hk. exact Hm.
  - exact Hm.
  - exact Hm.
Qed.

Lemma commitBatch_failStop files s :
  allAnswered w (calls s) → failStop w (commitBatch w files s).
Proof.
  intros Hs. unfold commitBatch.
  apply bind_failStop; [by apply git_failStop|]. intros _ s1 Hs1.
  unfold bind at 1, get at 1.
  apply bind_failStop; [by apply git_failStop|]. intros _ s2 Hs2.
  unfold bind at 1, setPart, modify.
  by apply git_failStop.
Qed.

Lemma forEach_failStop {A} (xs : list A) (body : A → M State unit) s :
  (∀ x s', allAnswered w (calls s') → failStop w (body x s')) →
  allAnswered w (calls s) →
  failStop w (forEach xs body s).
Proof.
  intros Hbody. revert s. induction xs as [|x xs IH]; intros s Hs; simpl.
  - exact Hs.
  - apply bind_failStop; [by apply Hbody|]. intros _ s' Hs'. by apply IH.
Qed.

(** X12: whatever git answers, the publish script stops at the first
    call that fails.  A fulfilled run made only calls that were answered
    well; a rejected run is rejected with the failure of the last call it
    made, every call before it was answered well, and no call follows it
    (so the batches pushed before it stay pushed); the script never loops. *)
Theorem publish_stops_at_first_failure : failStop w (run w init).
Proof.
  unfold run.
  apply bind_failStop; [apply git_failStop; by intros i c Hi|]. intros _ s1 Hs1.
  apply bind_failStop.
  { destruct (isRepoRoot w).
    - apply bind_failStop; [by apply git_failStop|]. intros _ s2 Hs2.
      by apply git_failStop.
    - apply bind_failStop; [by apply git_failStop|]. intros _ s2 Hs2.
      apply bind_failStop; [by apply git_failStop|]. intros _ s3 Hs3.
      by apply git_failStop. }
  intros _ s2 Hs2.
  apply bind_failStop; [by apply git_failStop|]. intros _ s3 Hs3.
  cbv zeta.
  destruct (_ && _); [exact Hs3|].
  unfold bind at 1, setPart at 1, modify at 1.
  apply bind_failStop.
  { destruct (_ || _); [by apply commitBatch_failStop|exact Hs3]. }
  intros _ s4 Hs4.
  destruct (0 <? _)%nat; [|exact Hs4].
  destruct (chunkArray_total (List.filter (hasExt ".mp3") (statusFiles w)) 100)
    as (batches & -> & _); [lia|].
  apply forEach_failStop; [|exact Hs4].
  intros batch s5 Hs5. by apply commitBatch_failStop.
Qed.

Lemma git_quiet c s :
  isPublishCall c = false →
  Forall (λ c, isPublishCall c = false) (calls s) →
  Forall (λ c, isPublishCall c = false) (calls (snd (git w c s))).
Proof.
  intros Hc Hs. unfold git, bind, get, modify, await. simpl.
  destruct (gitResult w (length (calls s)) c) as [[]|e]; simpl;
    apply Forall_app; split; try done; by constructor.
Qed.

Lemma bind_quiet {A B} (m : M State A) (k : A → M State B) s :
  Forall (λ c, isPublishCall c = false) (calls (snd (m s))) →
  (∀ a s', Forall (λ c, isPublishCall c = false) (calls s') →
           Forall (λ c, isPublishCall c = false) (calls (snd (k a s')))) →
  Forall (λ c, isPublishCall c = false) (calls (snd (bind m k s))).
Proof.
  intros Hm Hk. unfold bind. destruct (m s) as [[a|e|] s']; simpl in *; auto.
Qed.

Lemma no_extension_filter ext :
  (∀ f, f ∈ statusFiles w → hasExt ext f = false) →
  List.filter (hasExt ext) (statusFiles w) = [].
Proof. intros H. apply filter_none. intros f Hf. apply H. by apply list_elem_of_In. Qed.

Lemma run_sync (k : unit → M State unit) :
  (∀ i c, gitResult w i c = Fulfilled tt) →
  bind (git w CheckIsRepo)
    (λ _, bind (if isRepoRoot w
                then bind (git w (Fetch origin branch))
                       (λ _, git w (Reset ["--hard"; origin +:+ "/" +:+ branch]))
                else bind (git w Init)
                       (λ _, bind (git w (AddRemote "origin" origin))
                               (λ _, git w (Checkout ["--orphan"; branch]))))
            (λ _, bind (git w Status) k)) init
  = k tt {| calls := syncCalls w; part := 0 |}.
Proof.
  intros Hgit. rewrite (bind_Ok _ _ _ _ _ (git_ok w Hgit _ _)).
  unfold syncCalls. destruct (isRepoRoot w).
  - rewrite bind_assoc.
    rewrite !(bind_Ok _ _ _ _ _ (git_ok w Hgit _ _)). reflexivity.
  - repeat (rewrite ?bind_assoc; rewrite (bind_Ok _ _ _ _ _ (git_ok w Hgit _ _))).
    reflexivity.
Qed.

(** X13: when no changed file ends in .json, .png or .mp3, the script
    stages, commits and pushes nothing, whatever git answers; with git
    answering well it ends normally after bringing the working copy in line
    and asking for the status. *)
Theorem nothing_changed_nothing_published :
  (∀ f, f ∈ statusFiles w →
     hasExt ".json" f = false ∧ hasExt ".png" f = false ∧ hasExt ".mp3" f = false) →
  Forall (λ c, isPublishCall c = false) (calls (snd (run w init)))
  ∧ ((∀ i c, gitResult w i c = Fulfilled tt) →
     run w init = (Ok tt, {| calls := syncCalls w; part := 0 |})).
Proof.
  intros Hnone.
  assert (List.filter (hasExt ".json") (statusFiles w) = []) as Hj
    by (apply no_extension_filter; intros f Hf; by apply Hnone).
  assert (List.filter (hasExt ".png") (statusFiles w) = []) as Hp
    by (apply no_extension_filter; intros f Hf; by apply Hnone).
  assert (List.filter (hasExt ".mp3") (statusFiles w) = []) as Ha
    by (apply no_extension_filter; intros f Hf; by apply Hnone).
  split.
  - unfold run. rewrite Hj, Hp, Ha. simpl.
    apply bind_quiet; [apply git_quiet; [done|constructor]|]. intros _ s1 Hs1.
    apply bind_quiet.
    { destruct (isRepoRoot w).
      - apply bind_quiet; [by apply git_quiet|]. intros _ s2 Hs2.
        by apply git_quiet.
      - apply bind_quiet; [by apply git_quiet|]. intros _ s2 Hs2.
        apply bind_quiet; [by apply git_quiet|]. intros _ s3 Hs3.
        by apply git_quiet. }
    intros _ s2 Hs2.
    apply bind_quiet; [by apply git_quiet|]. intros _ s3 Hs3. exact Hs3.
  - intros Hgit. unfold run. rewrite run_sync by done.
    by rewrite Hj, Hp, Ha.
Qed.

Lemma planCalls_cons first batch batches :
  planCalls w first (batch :: batches)
  = batchCalls w first batch ++ planCalls w (S first) batches.
Proof.
  unfold planCalls. cbn [imap concat]. rewrite Nat.add_0_r. f_equal. f_equal.
  apply imap_ext. intros i b _. unfold compose.
  by rewrite Nat.add_succ_r.
Qed.

Lemma forEach_commit chunks s :
  (∀ i c, gitResult w i c = Fulfilled tt) →
  forEach chunks (λ batch, commitBatch w (map path batch)) s
  = (Ok tt,
     {| calls := calls s ++ planCalls w (part s) (map (map path) chunks);
        part := part s + length chunks |}).
Proof.
  intros Hgit. revert s. induction chunks as [|batch chunks IH]; intros s.
  - simpl. unfold ret, planCalls. simpl. rewrite app_nil_r, Nat.add_0_r. by destruct s.
  - cbn [forEach]. rewrite (bind_Ok _ _ _ _ _ (commitBatch_ok w Hgit _ _)), IH.
    cbn [calls part map length]. rewrite planCalls_cons, <- app_assoc.
    replace (part s + 1) with (S (part s)) by lia.
    replace (S (part s) + length chunks) with (part s + S (length chunks)) by lia.
    reflexivity.
Qed.

Lemma chunkArray_bounded {T} (xs : list T) n :
  0 < n →
  ∃ chunks, chunkArray xs n = Some chunks
            ∧ concat chunks = xs
            ∧ Forall (λ c, length c ≤ n) chunks.
Proof.
  intros Hn. destruct (chunkArray_total xs n Hn) as (chunks & Hchunk & Hcat).
  exists chunks. split; [done|]. split; [done|].
  assert (chunkArray xs n
          = Some (map (λ k, take n (drop (k * n) xs))
                    (seq 0 ((length xs + n - 1) / n)))) as Hclosed.
  { unfold chunkArray. change 0 with (0 * n) at 1.
    rewrite (chunkArray_loop_closed xs n Hn (S (length xs)) 0 []) by lia.
    by rewrite Nat.sub_0_r. }
  rewrite Hchunk in Hclosed. injection Hclosed as ->.
  apply Forall_forall. intros c Hc.
  apply list_elem_of_In, in_map_iff in Hc as (k & <- & _).
  rewrite length_take. lia.
Qed.

(** The run when git answers every call well. *)
Lemma run_plan :
  (∀ i c, gitResult w i c = Fulfilled tt) →
  let files := statusFiles w in
  let nonAudio :=
    map path (List.filter (hasExt ".json") files ++ List.filter (hasExt ".png") files) in
  ∃ s chunks,
    run w init = (Ok tt, s)
    ∧ chunkArray (List.filter (hasExt ".mp3") files) 100 = Some chunks
    ∧ concat chunks = List.filter (hasExt ".mp3") files
    ∧ Forall (λ c, length c ≤ 100) chunks
    ∧ calls s
      = syncCalls w
        ++ match nonAudio with [] => [] | _ :: _ => batchCalls w 1 nonAudio end
        ++ planCalls w (match nonAudio with [] => 1 | _ :: _ => 2 end)
             (map (map path) chunks).
Proof.
  intros Hgit files nonAudio.
  destruct (chunkArray_bounded (List.filter (hasExt ".mp3") files) 100)
    as (chunks & Hchunk & Hcat & Hbound); [lia|].
  unfold run. rewrite run_sync by done. fold files. cbv zeta.
  rewrite Hchunk. subst nonAudio.
  remember (List.filter (hasExt ".json") files) as jsonFiles eqn:Hj.
  remember (List.filter (hasExt ".png") files) as pngFiles eqn:Hp.
  remember (List.filter (hasExt ".mp3") files) as mp3Files eqn:Ha.
  destruct mp3Files as [|a mp3Files].
  - assert (chunks = []) as -> by (by injection Hchunk as <-).
    destruct jsonFiles as [|j jsonFiles]; [destruct pngFiles as [|p pngFiles]|].
    + eexists _, []. by rewrite !app_nil_r.
    + eexists _, []. split; [|split; [done|split; [done|split; [done|]]]].
      * simpl. unfold bind at 1, setPart at 1, modify at 1.
        rewrite (bind_Ok _ _ _ _ _ (commitBatch_ok w Hgit _ _)). reflexivity.
      * by rewrite !app_nil_r.
    + eexists _, []. split; [|split; [done|split; [done|split; [done|]]]].
      * simpl. unfold bind at 1, setPart at 1, modify at 1.
        rewrite (bind_Ok _ _ _ _ _ (commitBatch_ok w Hgit _ _)). reflexivity.
      * by rewrite !app_nil_r.
  - rewrite andb_false_r.
    unfold bind at 1, setPart at 1, modify at 1.
    destruct jsonFiles as [|j jsonFiles]; [destruct pngFiles as [|p pngFiles]|];
      cbn [length Nat.ltb Nat.leb orb app].
    + unfold bind at 1, ret at 1. rewrite forEach_commit by done.
      eexists _, chunks. split; [reflexivity|]. by repeat (split; [done|]).
    + rewrite (bind_Ok _ _ _ _ _ (commitBatch_ok w Hgit _ _)).
      rewrite forEach_commit by done.
      eexists _, chunks. split; [reflexivity|]. repeat (split; [done|]).
      cbn [calls part app map Nat.add]. by rewrite <- ?app_assoc.
    + rewrite (bind_Ok _ _ _ _ _ (commitBatch_ok w Hgit _ _)).
      rewrite forEach_commit by done.
      eexists _, chunks. split; [reflexivity|]. repeat (split; [done|]).
      cbn [calls part app map Nat.add]. by rewrite <- ?app_assoc.
Qed.

Lemma staged_app cs1 cs2 : staged (cs1 ++ cs2) = staged cs1 ++ staged cs2.
Proof. unfold staged. apply flat_map_app. Qed.

Lemma staged_syncCalls : staged (syncCalls w) = [].
Proof. unfold syncCalls. by destruct (isRepoRoot w). Qed.

Lemma staged_batchCalls n files : staged (batchCalls w n files) = files.
Proof. unfold staged, batchCalls. simpl. by rewrite app_nil_r. Qed.

Lemma staged_planCalls first batches :
  staged (planCalls w first batches) = concat batches.
Proof.
  revert first. induction batches as [|batch batches IH]; intros first; [done|].
  rewrite planCalls_cons, staged_app, staged_batchCalls, IH. done.
Qed.

(** X14: with git answering every call well, the script ends normally
    and publishes, after bringing the working copy in line: one batch with
    all changed .json and .png files, if there is any, then the changed .mp3
    files in chunks of at most 100, in the order git reported them.  Each
    batch is staged, committed with exactly the staged files and pushed
    before the next one starts; the batches are numbered from 1 in the commit
    messages, so the first audio batch is Part 1 when there is no other
    file. *)
Theorem publish_plan :
  (∀ i c, gitResult w i c = Fulfilled tt) →
  let files := statusFiles w in
  let nonAudio :=
    map path (List.filter (hasExt ".json") files ++ List.filter (hasExt ".png") files) in
  ∃ s chunks,
    run w init = (Ok tt, s)
    ∧ chunkArray (List.filter (hasExt ".mp3") files) 100 = Some chunks
    ∧ concat chunks = List.filter (hasExt ".mp3") files
    ∧ Forall (λ c, length c ≤ 100) chunks
    ∧ calls s
      = syncCalls w
        ++ match nonAudio with [] => [] | _ :: _ => batchCalls w 1 nonAudio end
        ++ planCalls w (match nonAudio with [] => 1 | _ :: _ => 2 end)
             (map (map path) chunks).
Proof. exact run_plan. Qed.

(** X15: with git answering every call well, the paths the script stages
    are, in order, the changed .json files, the changed .png files and the
    changed .mp3 files, each once per entry of the status; a changed file
    with another ending (an error log, say) is never staged. *)
Theorem only_matching_files_staged :
  (∀ i c, gitResult w i c = Fulfilled tt) →
  let files := statusFiles w in
  ∃ s,
    run w init = (Ok tt, s)
    ∧ staged (calls s)
      = map path (List.filter (hasExt ".json") files
                  ++ List.filter (hasExt ".png") files
                  ++ List.filter (hasExt ".mp3") files)
    ∧ ∀ p, p ∈ staged (calls s) →
           ∃ f, f ∈ files ∧ path f = p
                ∧ (endsWith p ".json" = true ∨ endsWith p ".png" = true
                   ∨ endsWith p ".mp3" = true).
Proof.
  intros Hgit files.
  destruct (run_plan Hgit) as (s & chunks & Hrun & _ & Hcat & _ & Hcalls).
  fold files in Hcat, Hcalls.
  assert (staged (calls s)
          = map path (List.filter (hasExt ".json") files
                      ++ List.filter (hasExt ".png") files
                      ++ List.filter (hasExt ".mp3") files)) as Hstaged.
  { rewrite Hcalls, !staged_app, staged_syncCalls, staged_planCalls.
    rewrite <- concat_map, Hcat. cbn [app].
    rewrite (app_assoc (List.filter (hasExt ".json") files)), (map_app path (_ ++ _)).
    f_equal.
    destruct (map path _) as [|p ps]; [done|]. apply staged_batchCalls. }
  exists s. split; [done|]. split; [done|].
  intros p Hp. rewrite Hstaged in Hp.
  apply list_elem_of_In, in_map_iff in Hp as (f & <- & Hf).
  rewrite !in_app_iff, !List.filter_In in Hf.
  exists f. unfold hasExt in Hf.
  split; [apply list_elem_of_In; tauto|]. split; [done|tauto].
Qed.
End PublishMore.

(** ** The whole trace of a run *)

Section RunTrace.
Import Build.
Context (w : World).

Lemma downloadItem_events r s :
  events (snd (downloadItem w r s)) = events s ++ downloadCalls w r (deref s r).
Proof.
  unfold downloadItem, bothSettled, requestMark, storeMark, downloadBgm,
    downloadCalls, settle, bind, get, emit, pushError, modify, await, ret, throw.
  destruct (markResponseLate w r);
    (destruct (ofetchMark w r) as [buf|e1]; [destruct (writeMark w r) as [[]|e1]|]);
    destruct (ytdlSave w r) as [[]|e2]; simpl; by rewrite <- ?app_assoc.
Qed.

Lemma forEach_download_events l s :
  ∃ s', forEach l (downloadItem w) s = (Ok tt, s')
    ∧ objects s' = objects s
    ∧ events s' = events s ++ flat_map (λ r, downloadCalls w r (deref s r)) l.
Proof.
  revert s. induction l as [|r l IH]; intros s.
  - exists s. by rewrite app_nil_r.
  - destruct (downloadItem_spec w r s) as (s1 & Hturn & [To _ _ _ _ _ _]).
    pose proof (downloadItem_events r s) as Hev. rewrite Hturn in Hev. simpl in Hev.
    destruct (IH s1) as (s2 & Hrest & Ho & Hevents).
    exists s2. split.
    { simpl. rewrite (bind_Ok _ _ _ _ _ Hturn). exact Hrest. }
    split; [congruence|].
    rewrite Hevents, Hev, <- app_assoc.
    change (flat_map (λ r0, downloadCalls w r0 (deref s r0)) (r :: l))
      with (downloadCalls w r (deref s r)
            ++ flat_map (λ r0, downloadCalls w r0 (deref s r0)) l).
    do 2 f_equal. apply flat_map_ext. intros r'.
    by rewrite (deref_objects _ _ _ To).
Qed.

Lemma firstRejection_ext {A} (f g : A → option string) (xs : list A) :
  (∀ x, f x = g x) → firstRejection f xs = firstRejection g xs.
Proof.
  intros Hfg. unfold firstRejection. f_equal.
  induction xs as [|x xs IH]; csimpl; [done|]. by rewrite Hfg, IH.
Qed.

Lemma upToFailure_data s s' batches :
  (∀ r, data (deref s' r) = data (deref s r)) →
  upToFailure w s' batches = upToFailure w s batches.
Proof.
  intros Hdata. induction batches as [|b bs IH]; cbn [upToFailure]; [done|].
  rewrite (firstRejection_ext (readRejection w s') (readRejection w s)), IH; [done|].
  intros r. unfold readRejection, getMarkFilename. by rewrite Hdata.
Qed.

(** X16: the stages of a run follow one another without overlap.  When
    the catalog was fetched, the calls of the run are, in this order: the
    catalog request; the calls of the download stage, item by item, the
    mark request first, then the track request and the write of the mark
    file in the order in which the response and the end of the delay come;
    one probe per work item; the reads of the mark files, batch by batch,
    for all batches or, when a read fails, up to the end of the first batch
    with a failing read; then the writes.  A run that is fulfilled has read
    every mark. *)
Theorem run_trace catalog :
  ofetchCatalog w = Fulfilled catalog →
  let outputData := seq 0 (length (project catalog)) in
  let s0 := loaded w catalog in
  ∃ batches writes,
    Js.chunkArray outputData 50 = Some batches
    ∧ events (snd (run w))
      = [OfetchCatalog]
        ++ flat_map (λ r, downloadCalls w r (deref s0 r)) (toDownloadList s0 outputData)
        ++ map (λ r, probeCall w (deref s0 r)) outputData
        ++ map (λ r, readCall w (deref s0 r)) (concat (upToFailure w s0 batches))
        ++ writes
    ∧ List.filter isWrite writes = writes
    ∧ (fst (run w) = Ok tt → concat (upToFailure w s0 batches) = outputData).
Proof.
  intros Hcat outputData s0.
  destruct (run_stages w catalog Hcat)
    as (s1 & s2 & s3 & Hload & H1 & R1 & H2 & R2 & R3 & _).
  fold outputData s0 in Hload, H1, R1, H2, R2.
  destruct (forEach_download_events (toDownloadList s0 outputData) s0)
    as (s1' & H1' & Ho1 & Hev1).
  assert (s1' = s1) as -> by (unfold downloadStage, bind, get in H1; congruence).
  destruct (enrichStage_exact w outputData s1) as (s2' & H2' & P).
  assert (s2' = s2) as -> by congruence.
  pose proof (λ r, pass_data w _ _ _ _ r P) as Hdata.
  destruct P as [_ _ _ _ _ Hev2].
  assert (∀ r, data (deref (with_marks ∅ s2) r) = data (deref s0 r)) as Hdata0.
  { intros r. change (deref (with_marks ∅ s2) r) with (deref s2 r).
    by rewrite Hdata, (deref_objects _ _ _ Ho1). }
  assert (∀ r, readCall w (deref (with_marks ∅ s2) r) = readCall w (deref s0 r)) as Hread.
  { intros r. unfold readCall, getMarkFilename. by rewrite Hdata0. }
  assert (events s2
          = [OfetchCatalog]
            ++ flat_map (λ r, downloadCalls w r (deref s0 r)) (toDownloadList s0 outputData)
            ++ map (λ r, probeCall w (deref s0 r)) outputData) as Hev.
  { rewrite Hev2, Hev1. simpl. do 2 f_equal.
    apply map_ext. intros r. by rewrite (deref_objects _ _ _ Ho1). }
  assert (run w = bind (encodeStage w outputData) (λ _, finish w outputData)
                    (with_marks ∅ s2)) as Hrun.
  { unfold run, main.
    rewrite (bind_Ok _ _ _ _ _ Hload), (bind_Ok _ _ _ _ _ H1), (bind_Ok _ _ _ _ _ H2).
    reflexivity. }
  destruct (encodeStage_exact w outputData (with_marks ∅ s2))
    as (batches & Hchunk & Hcat' & Henc).
  rewrite (upToFailure_data s0 (with_marks ∅ s2) batches Hdata0) in Henc.
  exists batches.
  rewrite Hrun. unfold bind. rewrite Henc.
  destruct (firstRejection (readRejection w (with_marks ∅ s2)) outputData)
    as [e|] eqn:Hfirst; cbn [settled].
  - exists []. split; [done|].
    split; [|split; [done|intros H; discriminate H]].
    cbn [snd]. unfold encodedState. cbn [events with_marks with_events].
    rewrite Hev, app_nil_r, <- !app_assoc. do 3 f_equal.
    apply map_ext. intros r. apply Hread.
  - assert (upToFailure w s0 batches = batches) as Hall.
    { rewrite <- (upToFailure_data s0 (with_marks ∅ s2) batches Hdata0).
      apply upToFailure_all. by rewrite Hcat'. }
    rewrite Hall, Hcat'.
    rewrite finish_spec.
    remember (encodedState w (with_marks ∅ s2) outputData) as s3' eqn:Hs3.
    assert (events s3'
            = [OfetchCatalog]
              ++ flat_map (λ r, downloadCalls w r (deref s0 r))
                   (toDownloadList s0 outputData)
              ++ map (λ r, probeCall w (deref s0 r)) outputData
              ++ map (λ r, readCall w (deref s0 r)) outputData) as Hev3.
    { subst s3'. unfold encodedState. cbn [events with_marks with_events].
      rewrite Hev, <- !app_assoc. do 3 f_equal. apply map_ext. intros r. apply Hread. }
    destruct (errorLogs s3') as [|r rs];
      [|destruct (writeErrorLog w) as [[]|e]]; cbn [snd fst events with_events].
    + exists [dataWrite w outputData s3'].
      rewrite Hev3, <- !app_assoc. done.
    + exists [logWrite w s3'; dataWrite w outputData s3'].
      rewrite Hev3, <- !app_assoc. done.
    + exists [logWrite w s3'].
      rewrite Hev3, <- !app_assoc. done.
Qed.

(** When the response to the first mark request comes after the delay of
    the track download, the track is requested before the mark is
    written. *)
Example lateMarkResponse_calls :
  take 4 (events (snd (run Samples.lateMarkResponse)))
  = [OfetchCatalog;
     OfetchMark "https://maplestory-music.github.io/mark/henesys.png";
     Ytdl "yt-floral" "/repo/output/bgm/FloralLife.mp3";
     WriteMark "/repo/output/mark/henesys.png"].
Proof. by vm_compute. Qed.
End RunTrace.

(** ** The publish script: no file is staged twice *)

Section PublishDisjoint.
Import Js Publish.

Lemma substring_full s : String.substring 0 (String.length s) s = s.
Proof. induction s as [|c s IH]; simpl; [done|]. by rewrite IH. Qed.

Lemma substring_suffix s k m :
  k + m = String.length s → ∃ p, s = p +:+ String.substring k m s.
Proof.
  revert k. induction s as [|c s IH]; intros k Hk; simpl in Hk.
  - assert (k = 0) as -> by lia. assert (m = 0) as -> by lia. by exists EmptyString.
  - destruct k as [|k].
    + exists EmptyString. simpl in Hk. subst m. simpl. by rewrite substring_full.
    + destruct (IH k) as [p Hp]; [lia|]. exists (String c p).
      rewrite Hp at 1. reflexivity.
Qed.

Lemma endsWith_suffix s suffix :
  endsWith s suffix = true → ∃ p, s = p +:+ suffix.
Proof.
  unfold endsWith. intros H. apply andb_true_iff in H as [Hlen Heq].
  apply Nat.leb_le in Hlen. apply String.eqb_eq in Heq.
  destruct (substring_suffix s (String.length s - String.length suffix)
              (String.length suffix)) as [p Hp]; [lia|].
  exists p. by rewrite Heq in Hp.
Qed.

Lemma lastChar_append p suffix :
  suffix ≠ EmptyString → lastChar (p +:+ suffix) = lastChar suffix.
Proof.
  intros Hne. induction p as [|c p IH]; [done|].
  change (String c p +:+ suffix) with (String c (p +:+ suffix)).
  cbn [lastChar]. destruct (p +:+ suffix) as [|c' rest] eqn:Happ; [|exact IH].
  destruct p as [|c0 p0]; [by change (suffix = EmptyString) in Happ|].
  change (String c0 (p0 +:+ suffix) = EmptyString) in Happ. discriminate.
Qed.

Lemma endsWith_lastChar s suffix :
  suffix ≠ EmptyString → endsWith s suffix = true → lastChar s = lastChar suffix.
Proof.
  intros Hne Hends. apply endsWith_suffix in Hends as [p ->].
  by apply lastChar_append.
Qed.

(** A path has at most one of the three endings. *)
Lemma endings_disjoint p :
  (endsWith p ".json" = true → endsWith p ".png" = false ∧ endsWith p ".mp3" = false)
  ∧ (endsWith p ".png" = true → endsWith p ".mp3" = false).
Proof.
  split; [intros Hj; split|intros Hp].
  - destruct (endsWith p ".png") eqn:Hp; [|done].
    apply endsWith_lastChar in Hj, Hp; try done. rewrite Hj in Hp. discriminate.
  - destruct (endsWith p ".mp3") eqn:Ha; [|done].
    apply endsWith_lastChar in Hj, Ha; try done. rewrite Hj in Ha. discriminate.
  - destruct (endsWith p ".mp3") eqn:Ha; [|done].
    apply endsWith_lastChar in Hp, Ha; try done. rewrite Hp in Ha. discriminate.
Qed.

Lemma NoDup_map_filter (f : FileStatusResult → bool) files :
  NoDup (map path files) → NoDup (map path (List.filter f files)).
Proof.
  induction files as [|x files IH]; simpl; [done|].
  intros Hnd. apply NoDup_cons in Hnd as [Hx Hnd].
  destruct (f x); [|by apply IH].
  simpl. apply NoDup_cons. split; [|by apply IH].
  intros Hin. apply Hx.
  apply list_elem_of_In, in_map_iff in Hin as (y & Hy & Hin).
  apply List.filter_In in Hin as [Hin _].
  apply list_elem_of_In, in_map_iff. by exists y.
Qed.

Lemma in_map_filter_ends ext files p :
  p ∈ map path (List.filter (hasExt ext) files) → endsWith p ext = true.
Proof.
  intros Hin. apply list_elem_of_In, in_map_iff in Hin as (f & <- & Hf).
  by apply List.filter_In in Hf as [_ Hf].
Qed.

(** X17: a path ends in at most one of .json, .png and .mp3, so the
    three groups of changed files do not overlap: when git reports each
    changed path once and answers every call well, no path is staged twice,
    that is, every changed file goes into exactly one commit. *)
Theorem no_file_staged_twice w :
  (∀ i c, gitResult w i c = Fulfilled tt) →
  NoDup (map path (statusFiles w)) →
  ∃ s, run w init = (Ok tt, s) ∧ NoDup (staged (calls s)).
Proof.
  intros Hgit Hnd.
  destruct (run_plan w Hgit) as (s & chunks & Hrun & _ & Hcat & _ & Hcalls).
  exists s. split; [done|].
  assert (staged (calls s)
          = map path (List.filter (hasExt ".json") (statusFiles w))
            ++ map path (List.filter (hasExt ".png") (statusFiles w))
            ++ map path (List.filter (hasExt ".mp3") (statusFiles w))) as ->.
  { rewrite Hcalls, !staged_app, staged_syncCalls, staged_planCalls.
    rewrite <- concat_map, Hcat. cbn [app]. rewrite app_assoc, <- map_app. f_equal.
    generalize (map path (List.filter (hasExt ".json") (statusFiles w)
                          ++ List.filter (hasExt ".png") (statusFiles w))).
    intros [|p ps]; [done|]. apply staged_batchCalls. }
  apply NoDup_app. split; [by apply NoDup_map_filter|]. split.
  - intros p Hj Hin. apply in_map_filter_ends in Hj.
    destruct (endings_disjoint p) as [Hdis _]. destruct (Hdis Hj) as [Hp Ha].
    apply elem_of_app in Hin as [Hin|Hin]; apply in_map_filter_ends in Hin; congruence.
  - apply NoDup_app. split; [by apply NoDup_map_filter|].
    split; [|by apply NoDup_map_filter].
    intros p Hp Hin. apply in_map_filter_ends in Hp, Hin.
    destruct (endings_disjoint p) as [_ Hdis]. specialize (Hdis Hp). congruence.
Qed.
End PublishDisjoint.

(** ** Instances on the sample worlds *)

Lemma enrich_durations_witness :
  let w := Build.Samples.durationUnknown in
  let s := Build.downloadStart Build.Samples.catalog3 ∅ ∅ in
  ∃ s', Build.enrichStage w (seq 0 (length (Build.objects s))) s = (Ok tt, s')
    ∧ length (Build.objects s') = length (Build.objects s)
    ∧ ∀ r item, Build.objects s !! r = Some item →
        ∃ d, Build.objects s' !! r = Some (Build.set_duration d item)
          ∧ (∀ err, Build.ffprobe w r = Build.ProbeErr err → d = Js.Num Js.zero)
          ∧ (∀ v, Build.ffprobe w r = Build.ProbeOk v →
               d = if Js.truthyValue v then v else Js.Num Js.zero)
          ∧ ((∀ text, Build.ffprobe w r ≠ Build.ProbeOk (Js.Str text)) →
             Js.isNumber d = true)
          ∧ (∀ text, text ≠ EmptyString →
               Build.ffprobe w r = Build.ProbeOk (Js.Str text) → d = Js.Str text).
Proof.
  exact (enrich_durations Build.Samples.durationUnknown
           (Build.downloadStart Build.Samples.catalog3 ∅ ∅)).
Defined.

Lemma manifest_marks_witness :
  let w := Build.Samples.protoMark in
  ∃ m,
    Build.manifestOf (Build.events (snd (Build.run w))) = Some m
    ∧ (∀ item, item ∈ Build.Manifest.bgms m →
         Build.mark (Build.data item) ≠ "__proto__" →
         ∃ buf, Build.readFileSync w
                  (Build.path_join (Build.markDir w) (Build.getMarkFilename item))
                = Fulfilled buf
                ∧ Build.Manifest.marks m !! Build.mark (Build.data item)
                  = Some (Build.deflateSync w buf))
    ∧ (∀ k, is_Some (Build.Manifest.marks m !! k) →
            k ≠ "__proto__"
            ∧ ∃ item, item ∈ Build.Manifest.bgms m ∧ Build.mark (Build.data item) = k)
    ∧ Build.Manifest.marks m !! "__proto__" = None.
Proof.
  eexists. split; [by vm_compute|].
  apply (manifest_marks Build.Samples.protoMark). by vm_compute.
Defined.

Lemma manifest_entries_witness :
  let w := Build.Samples.calm in
  ∃ m,
    Build.manifestOf (Build.events (snd (Build.run w))) = Some m
    ∧ ∃ catalog before,
        Build.ofetchCatalog w = Fulfilled catalog
        ∧ Build.Manifest.bgms m
          = imap (Build.manifestEntry w) (List.filter Build.hasYoutube catalog)
        ∧ Build.Manifest.builtAt m = Build.builtAtNow w
        ∧ Build.events (snd (Build.run w))
          = before
            ++ [Build.WriteManifest (Build.path_join (Build.outputDir w) "data.json") m].
Proof.
  eexists. split; [by vm_compute|].
  apply (manifest_entries Build.Samples.calm). by vm_compute.
Defined.

Lemma error_log_content_witness :
  let w := Build.Samples.slowFirstProbe in
  let catalog := Build.Samples.catalog3 in
  Build.ofetchCatalog w = Fulfilled catalog
  ∧ Build.marksReadable w catalog
  ∧ Build.errorLogs (snd (Build.run w)) = Build.runErrors w catalog
  ∧ List.filter Build.isErrorLogWrite (Build.events (snd (Build.run w)))
    = [Build.WriteErrorLog "/repo/output/error-1700000000000.log"
         [{| Build.type := Build.Bgm;
             Build.message :=
               "Failed to get duration for GoPicnic: ffprobe exited with code 1" |};
          {| Build.type := Build.Bgm;
             Build.message :=
               "Failed to get duration for FloralLife: ffprobe exited with code 1" |}]].
Proof.
  split; [reflexivity|].
  assert (Build.marksReadable Build.Samples.slowFirstProbe Build.Samples.catalog3) as Hread
    by (intros item _; by exists Build.Samples.png).
  split; [exact Hread|].
  destruct (error_log_content Build.Samples.slowFirstProbe Build.Samples.catalog3 eq_refl)
    as [Hlogs Hwrite].
  split; [exact Hlogs|]. rewrite (Hwrite Hread). by vm_compute.
Defined.

Lemma run_requests_witness :
  let w := Build.Samples.markOnDisk in
  let catalog := [Build.Samples.entry "FloralLife" "henesys" "yt-floral"] in
  Build.ofetchCatalog w = Fulfilled catalog
  ∧ List.filter Build.isFetch (Build.events (snd (Build.run w)))
    = [Build.OfetchMark "https://maplestory-music.github.io/mark/henesys.png";
       Build.Ytdl "yt-floral" "/repo/output/bgm/FloralLife.mp3"].
Proof.
  split; [reflexivity|].
  destruct (run_requests Build.Samples.markOnDisk
              [Build.Samples.entry "FloralLife" "henesys" "yt-floral"] eq_refl)
    as [Hfetch _].
  rewrite Hfetch. by vm_compute.
Defined.

Lemma catalog_failure_is_fatal_witness :
  let w := Build.Samples.offline in
  Build.ofetchCatalog w = Rejected "fetch failed"
  ∧ fst (Build.run w) = Throw "fetch failed"
  ∧ Build.events (snd (Build.run w)) = [Build.OfetchCatalog]
  ∧ Build.objects (snd (Build.run w)) = []
  ∧ Build.errorLogs (snd (Build.run w)) = [].
Proof.
  split; [reflexivity|].
  apply (catalog_failure_is_fatal Build.Samples.offline "fetch failed"). reflexivity.
Defined.

(** Fifty-one marks, the first unreadable: the fifty marks of the first
    batch are read, the last mark is not, and the run is rejected. *)
Example firstMarkUnreadable_run :
  let s := snd (Build.run Build.Samples.firstMarkUnreadable) in
  fst (Build.run Build.Samples.firstMarkUnreadable)
  = Throw "ENOENT: no such file or directory"
  ∧ length (List.filter (λ e, match e with Build.ReadFileSync _ => true | _ => false end)
              (Build.events s)) = 50
  ∧ size (Build.marks s) = 49.
Proof. by vm_compute. Qed.

Lemma nothing_changed_nothing_published_witness :
  let w := Publish.Samples.onlyLog in
  (∀ f, f ∈ Publish.statusFiles w →
     Publish.hasExt ".json" f = false ∧ Publish.hasExt ".png" f = false
     ∧ Publish.hasExt ".mp3" f = false)
  ∧ Forall (λ c, Publish.isPublishCall c = false)
      (Publish.calls (snd (Publish.run w Publish.init))).
Proof.
  assert (∀ f, f ∈ Publish.statusFiles Publish.Samples.onlyLog →
            Publish.hasExt ".json" f = false ∧ Publish.hasExt ".png" f = false
            ∧ Publish.hasExt ".mp3" f = false) as Hfiles.
  { intros f Hf. apply list_elem_of_singleton in Hf as ->. by vm_compute. }
  split; [exact Hfiles|].
  apply (nothing_changed_nothing_published Publish.Samples.onlyLog Hfiles).
Defined.

Lemma publish_plan_witness :
  let w := Publish.Samples.firstDeploy in
  (∀ i c, Publish.gitResult w i c = Fulfilled tt)
  ∧ ∃ s chunks,
      Publish.run w Publish.init = (Ok tt, s)
      ∧ Js.chunkArray (List.filter (Publish.hasExt ".mp3") (Publish.statusFiles w)) 100
        = Some chunks
      ∧ map length chunks = [100; 100; 50].
Proof.
  split; [by intros i c|].
  destruct (publish_plan Publish.Samples.firstDeploy) as (s & chunks & Hrun & Hchunk & _);
    [by intros i c|].
  exists s, chunks. split; [done|]. split; [done|].
  revert Hchunk. vm_compute. by intros [= <-].
Defined.

Lemma only_matching_files_staged_witness :
  let w := Publish.Samples.firstDeploy in
  (∀ i c, Publish.gitResult w i c = Fulfilled tt)
  ∧ ∃ s,
      Publish.run w Publish.init = (Ok tt, s)
      ∧ length (Publish.staged (Publish.calls s)) = 260
      ∧ "error-1700000000000.log" ∉ Publish.staged (Publish.calls s).
Proof.
  split; [by intros i c|].
  destruct (only_matching_files_staged Publish.Samples.firstDeploy)
    as (s & Hrun & Hstaged & Hext); [by intros i c|].
  exists s. split; [done|]. split.
  - rewrite Hstaged. by vm_compute.
  - intros Hin. destruct (Hext _ Hin) as (f & _ & _ & Hends).
    vm_compute in Hends. by destruct Hends as [?|[?|?]].
Defined.

(** The first deployment with the push of the second batch refused: the
    run is rejected with that failure, eleven calls were made, and the last
    commit is Part 2. *)
Example pushRefused_run :
  let r := Publish.run Publish.Samples.pushRefused Publish.init in
  fst r = Throw "remote rejected"
  ∧ length (Publish.calls (snd r)) = 11
  ∧ omap (λ c, match c with Publish.Commit message _ => Some message | _ => None end)
      (Publish.calls (snd r))
    = ["2026-01-31 - Deploy resources - Part 1";
       "2026-01-31 - Deploy resources - Part 2"].
Proof. by vm_compute. Qed.

Lemma no_file_staged_twice_witness :
  let w := Publish.Samples.firstDeploy in
  (∀ i c, Publish.gitResult w i c = Fulfilled tt)
  ∧ NoDup (map Publish.path (Publish.statusFiles w))
  ∧ ∃ s, Publish.run w Publish.init = (Ok tt, s)
         ∧ NoDup (Publish.staged (Publish.calls s)).
Proof.
  assert (NoDup (map Publish.path (Publish.statusFiles Publish.Samples.firstDeploy)))
    as Hnd by (refine (bool_decide_unpack _ _); by vm_compute).
  split; [by intros i c|]. split; [exact Hnd|].
  apply (no_file_staged_twice Publish.Samples.firstDeploy); [by intros i c|exact Hnd].
Defined.

Lemma run_trace_witness :
  let w := Build.Samples.lateMarkResponse in
  let s0 := Build.loaded w Build.Samples.catalog3 in
  Build.ofetchCatalog w = Fulfilled Build.Samples.catalog3
  ∧ ∃ batches writes,
      Js.chunkArray [0; 1] 50 = Some batches
      ∧ Build.events (snd (Build.run w))
        = [Build.OfetchCatalog;
           Build.OfetchMark "https://maplestory-music.github.io/mark/henesys.png";
           Build.Ytdl "yt-floral" "/repo/output/bgm/FloralLife.mp3";
           Build.WriteMark "/repo/output/mark/henesys.png";
           Build.OfetchMark "https://maplestory-music.github.io/mark/kerning.png";
           Build.WriteMark "/repo/output/mark/kerning.png";
           Build.Ytdl "yt-picnic" "/repo/output/bgm/GoPicnic.mp3";
           Build.Ffprobe "/repo/output/bgm/FloralLife.mp3";
           Build.Ffprobe "/repo/output/bgm/GoPicnic.mp3"]
          ++ map (λ r, Build.readCall w (Build.deref s0 r))
               (concat (Build.upToFailure w s0 batches))
          ++ writes
      ∧ List.filter Build.isWrite writes = writes
      ∧ (fst (Build.run w) = Ok tt
         → concat (Build.upToFailure w s0 batches) = [0; 1]).
Proof.
  split; [reflexivity|].
  destruct (run_trace Build.Samples.lateMarkResponse Build.Samples.catalog3 eq_refl)
    as (batches & writes & Hchunk & Hev & Hwrites & Hok).
  exists batches, writes. split; [exact Hchunk|]. split; [exact Hev|]. by split.
Defined.
